(** * Verification of the [color] terminal styling library

    The development embeds [src/build.ts] (the colors module): the
    capability detector [isColorSupported], the closure factory
    [formatter], its helper loop [replaceClose] and the table built by
    [createColors].

    JavaScript strings are sequences of UTF-16 code units; they are modelled
    as lists of code units ([N]).  The code only ever compares code units for
    equality and slices strings by index, so no bound on the units is needed.
    Environment variable names and values, command-line arguments and the
    platform identifier are only compared as whole strings and are kept as
    [string]. *)

From Stdlib Require Import ZArith List Lia Bool Ascii String.
From stdpp Require Import base gmap strings.
From Equations Require Import Equations.
Import ListNotations.

Local Open Scope nat_scope.

(** ** JavaScript strings *)

Definition text := list N.

(** The escape character, [\x1b]. *)
Definition ESC : N := 27%N.

(** A printable ASCII literal as a text. *)
Definition lit (s : string) : text :=
  List.map N_of_ascii (list_ascii_of_string s).

(** [esc "[1m"] is the source literal ["\x1b[1m"]. *)
Definition esc (s : string) : text := ESC :: lit s.

Module JSString.

(** Does [search] occur in [s] at index 0? *)
Fixpoint starts_with (search s : text) : bool :=
  match search, s with
  | [], _ => true
  | _ :: _, [] => false
  | a :: search', b :: s' => N.eqb a b && starts_with search' s'
  end.

(** Clamp an integer position into [0 .. len]. *)
Definition clamp (len : nat) (pos : Z) : nat :=
  Z.to_nat (Z.max 0 (Z.min pos (Z.of_nat len))).

(** [find_at search s k]: [s] is the suffix of the subject that starts at
    index [k]; the least index [>= k] at which [search] occurs, or [-1]. *)
Fixpoint find_at (search s : text) (k : nat) : Z :=
  if starts_with search s then Z.of_nat k
  else match s with
       | [] => (-1)%Z
       | _ :: s' => find_at search s' (S k)
       end.

(** [String.prototype.indexOf(search, position)]. *)
Definition indexOf (s search : text) (position : Z) : Z :=
  let start := clamp (length s) position in
  find_at search (skipn start s) start.

(** [String.prototype.substring(start, end)]; [end_ = None] is the
    one-argument call.  Both bounds are clamped and swapped when out of
    order. *)
Definition substring (s : text) (start : Z) (end_ : option Z) : text :=
  let len := length s in
  let intStart := clamp len start in
  let intEnd := match end_ with
                | None => len
                | Some e => clamp len e
                end in
  let from := Nat.min intStart intEnd in
  let to := Nat.max intStart intEnd in
  firstn (to - from) (skipn from s).

(** Truthiness of the number [~index]. *)
Definition found (index : Z) : bool := negb (Z.eqb (Z.lnot index) 0).

End JSString.
Import JSString.

(** ** The resequencer ([formatter] and [replaceClose]) *)

(** The [do ... while (~index)] loop of [replaceClose].  One unit of fuel is
    spent per iteration; [None] means the fuel ran out before the loop
    condition became false. *)
Fixpoint replaceClose_loop (fuel : nat) (str close replace : text)
    (result : text) (cursor index : Z) : option text :=
  match fuel with
  | O => None
  | S fuel' =>
      let result := result ++ substring str cursor (Some index) ++ replace in
      let cursor := (index + Z.of_nat (length close))%Z in
      let index := indexOf str close cursor in
      if found index
      then replaceClose_loop fuel' str close replace result cursor index
      else Some (result ++ substring str cursor None)
  end.

Definition replaceClose (fuel : nat) (str close replace : text) (index : Z)
    : option text :=
  replaceClose_loop fuel str close replace [] 0%Z index.

(** A style function: fuel for the loop, input text, result. *)
Definition style_fn := nat -> text -> option text.

(** The default parameter [replace = open]; [None] is an omitted
    argument. *)
Definition default_replace (open : text) (replace : option text) : text :=
  match replace with Some r => r | None => open end.

(** [formatter(open, close, replace = open)] returns a closure over the
    three codes.  The input is a string, on which the coercion ["" + input]
    is the identity. *)
Definition formatter (open close : text) (replace : option text) : style_fn :=
  let replace := default_replace open replace in
  fun fuel input =>
    let str := input in
    let index := indexOf str close (Z.of_nat (length open)) in
    if found index
    then match replaceClose fuel str close replace index with
         | Some r => Some (open ++ r ++ close)
         | None => None
         end
    else Some (open ++ str ++ close).

(** ** The style table ([createColors]) *)

Inductive style : Set :=
| reset | bold | dim | italic | underline | inverse | hidden | strikethrough
| black | red | green | yellow | blue | magenta | cyan | white | gray
| bgBlack | bgRed | bgGreen | bgYellow | bgBlue | bgMagenta | bgCyan | bgWhite
| blackBright | redBright | greenBright | yellowBright | blueBright
| magentaBright | cyanBright | whiteBright
| bgBlackBright | bgRedBright | bgGreenBright | bgYellowBright
| bgBlueBright | bgMagentaBright | bgCyanBright | bgWhiteBright.

(** The arguments each key of the table passes to [f]. *)
Definition style_args (st : style) : text * text * option text :=
  match st with
  | reset => (esc "[0m", esc "[0m", None)
  | bold => (esc "[1m", esc "[22m", Some (esc "[22m" ++ esc "[1m"))
  | dim => (esc "[2m", esc "[22m", Some (esc "[22m" ++ esc "[2m"))
  | italic => (esc "[3m", esc "[23m", None)
  | underline => (esc "[4m", esc "[24m", None)
  | inverse => (esc "[7m", esc "[27m", None)
  | hidden => (esc "[8m", esc "[28m", None)
  | strikethrough => (esc "[9m", esc "[29m", None)
  | black => (esc "[30m", esc "[39m", None)
  | red => (esc "[31m", esc "[39m", None)
  | green => (esc "[32m", esc "[39m", None)
  | yellow => (esc "[33m", esc "[39m", None)
  | blue => (esc "[34m", esc "[39m", None)
  | magenta => (esc "[35m", esc "[39m", None)
  | cyan => (esc "[36m", esc "[39m", None)
  | white => (esc "[37m", esc "[39m", None)
  | gray => (esc "[90m", esc "[39m", None)
  | bgBlack => (esc "[40m", esc "[49m", None)
  | bgRed => (esc "[41m", esc "[49m", None)
  | bgGreen => (esc "[42m", esc "[49m", None)
  | bgYellow => (esc "[43m", esc "[49m", None)
  | bgBlue => (esc "[44m", esc "[49m", None)
  | bgMagenta => (esc "[45m", esc "[49m", None)
  | bgCyan => (esc "[46m", esc "[49m", None)
  | bgWhite => (esc "[47m", esc "[49m", None)
  | blackBright => (esc "[90m", esc "[39m", None)
  | redBright => (esc "[91m", esc "[39m", None)
  | greenBright => (esc "[92m", esc "[39m", None)
  | yellowBright => (esc "[93m", esc "[39m", None)
  | blueBright => (esc "[94m", esc "[39m", None)
  | magentaBright => (esc "[95m", esc "[39m", None)
  | cyanBright => (esc "[96m", esc "[39m", None)
  | whiteBright => (esc "[97m", esc "[39m", None)
  | bgBlackBright => (esc "[100m", esc "[49m", None)
  | bgRedBright => (esc "[101m", esc "[49m", None)
  | bgGreenBright => (esc "[102m", esc "[49m", None)
  | bgYellowBright => (esc "[103m", esc "[49m", None)
  | bgBlueBright => (esc "[104m", esc "[49m", None)
  | bgMagentaBright => (esc "[105m", esc "[49m", None)
  | bgCyanBright => (esc "[106m", esc "[49m", None)
  | bgWhiteBright => (esc "[107m", esc "[49m", None)
  end.

Definition style_open (st : style) : text := fst (fst (style_args st)).
Definition style_close (st : style) : text := snd (fst (style_args st)).
Definition style_replace (st : style) : text :=
  default_replace (style_open st) (snd (style_args st)).

(** The global [String], applied to a string. *)
Definition String_ : style_fn := fun _ input => Some input.

(** The object returned by [createColors]: the [isColorSupported] field and
    one function per style key. *)
Record ColorFunctions := {
  cf_isColorSupported : bool;
  cf_style : style -> style_fn
}.

Definition createColors (enabled : bool) : ColorFunctions :=
  let f := if enabled then formatter else (fun _ _ _ => String_) in
  {| cf_isColorSupported := enabled;
     cf_style := fun st =>
       let '(open, close, replace) := style_args st in f open close replace |}.


(** The JavaScript expression [outer(inner(s))]. *)
Definition nested (outer inner : style_fn) : style_fn :=
  fun fuel input =>
    match inner fuel input with
    | Some t => outer fuel t
    | None => None
    end.

(** ** The capability detector ([isColorSupported]) *)

Module Detector.

(** The JavaScript values the detector's expression can produce. *)
Inductive value : Set :=
| VUndefined
| VBool (b : bool)
| VString (s : string).

Definition truthy (v : value) : bool :=
  match v with
  | VUndefined => false
  | VBool b => b
  | VString s => negb (String.eqb s EmptyString)
  end.

(** [!a], [a || b], [a && b] and [a === b] on values. *)
Definition js_not (a : value) : value := VBool (negb (truthy a)).
Definition js_or (a b : value) : value := if truthy a then a else b.
Definition js_and (a b : value) : value := if truthy a then b else a.
Definition strict_eq (a b : value) : value :=
  VBool match a, b with
        | VUndefined, VUndefined => true
        | VBool x, VBool y => Bool.eqb x y
        | VString x, VString y => String.eqb x y
        | _, _ => false
        end.
Definition strict_ne (a b : value) : value :=
  js_not (strict_eq a b).

(** [process.stdout]: [isTTY] is [true] on a terminal and absent
    otherwise. *)
Record Stdout := { isTTY : option bool }.

(** The properties of [process] the module reads; each may be absent. *)
Record Process := {
  argv : option (list string);
  env : option (gmap string string);
  platform : option string;
  stdout : option Stdout
}.

(** [Array.prototype.includes] on an array of strings. *)
Definition includes (a : list string) (x : string) : value :=
  VBool (existsb (String.eqb x) a).

(** Property access [env.NAME]. *)
Definition get (e : gmap string string) (name : string) : value :=
  match e !! name with
  | Some v => VString v
  | None => VUndefined
  end.

Definition of_string (o : option string) : value :=
  match o with Some s => VString s | None => VUndefined end.

Definition of_bool (o : option bool) : value :=
  match o with Some b => VBool b | None => VUndefined end.

(** [const p = process || {}, argv = p.argv || [], env = p.env || {}]
    followed by the [isColorSupported] expression.  [process = None] is a
    [process] binding that holds no object. *)
Definition isColorSupported (process : option Process) : value :=
  let p := match process with
           | Some p => p
           | None => {| argv := None; env := None;
                        platform := None; stdout := None |}
           end in
  let argv := match argv p with Some a => a | None => [] end in
  let env := match env p with Some e => e | None => ∅ end in
  let p_stdout := match stdout p with
                  | Some o => o
                  | None => {| isTTY := None |}
                  end in
  js_and
    (js_not (js_or (js_not (js_not (get env "NO_COLOR")))
                   (includes argv "--no-color")))
    (js_or
       (js_or
          (js_or
             (js_or (js_not (js_not (get env "FORCE_COLOR")))
                    (includes argv "--color"))
             (strict_eq (of_string (platform p)) (VString "win32")))
          (js_and (of_bool (isTTY p_stdout))
                  (strict_ne (get env "TERM") (VString "dumb"))))
       (js_not (js_not (get env "CI")))).

(** *** The precedence rule, in the specification's words *)

(** The signals the rule is phrased over. *)
Record signals := {
  NO_COLOR_set : bool;
  no_color_flag : bool;
  FORCE_COLOR_set : bool;
  color_flag : bool;
  windows : bool;
  tty : bool;
  TERM_dumb : bool;
  CI_set : bool
}.

(** Disable wins; otherwise any enabling signal enables; otherwise
    disabled. *)
Definition precedence_rule (g : signals) : bool :=
  if NO_COLOR_set g || no_color_flag g then false
  else if FORCE_COLOR_set g || color_flag g || windows g
          || (tty g && negb (TERM_dumb g)) || CI_set g
       then true
       else false.

(** A variable is set when it is present with a non-empty value. *)
Definition is_set (e : gmap string string) (name : string) : bool :=
  match e !! name with
  | Some v => negb (String.eqb v EmptyString)
  | None => false
  end.

(** Reading the signals off a process snapshot, absent data being
    empty. *)
Definition signals_of (process : option Process) : signals :=
  let e := match process with
           | Some p => match env p with Some e => e | None => ∅ end
           | None => ∅
           end in
  let a := match process with
           | Some p => match argv p with Some a => a | None => [] end
           | None => []
           end in
  {| NO_COLOR_set := is_set e "NO_COLOR";
     no_color_flag := existsb (String.eqb "--no-color") a;
     FORCE_COLOR_set := is_set e "FORCE_COLOR";
     color_flag := existsb (String.eqb "--color") a;
     windows := match process with
                | Some p => match platform p with
                            | Some s => String.eqb s "win32"
                            | None => false
                            end
                | None => false
                end;
     tty := match process with
            | Some p => match stdout p with
                        | Some o => match isTTY o with
                                    | Some b => b
                                    | None => false
                                    end
                        | None => false
                        end
            | None => false
            end;
     TERM_dumb := match e !! "TERM" with
                  | Some v => String.eqb v "dumb"
                  | None => false
                  end;
     CI_set := is_set e "CI" |}.

End Detector.

(** [createColors()] with the default parameter
    [enabled = isColorSupported], as in the module's final [export]. *)
Definition default_colors (process : option Detector.Process)
    : ColorFunctions :=
  createColors (Detector.truthy (Detector.isColorSupported process)).

(** ** Specification-level descriptions of the resequencer *)

(** Does [search] occur in [s] at index [k]? *)
Definition occurs_at (search s : text) (k : nat) : bool :=
  starts_with search (skipn k s).

(** Replace every occurrence of [close] in [s] by [replace], scanning left to
    right and resuming right after each replaced occurrence. *)
Equations? replace_all (close replace s : text) : text by wf (length s) lt :=
  replace_all close replace [] := [];
  replace_all close replace (c :: s') with starts_with close (c :: s') := {
    | true := replace
              ++ replace_all close replace (skipn (length close - 1) s');
    | false := c :: replace_all close replace s' }.
Proof.
  all: simpl; try rewrite length_skipn; lia.
Qed.

(** The contract of [wrap] exactly as the specification words it: look for
    an occurrence strictly after position [length open]; when there is one,
    replace every occurrence in the text. *)
Definition spec_wrap (text_ open close replacement : text) : text :=
  if found (indexOf text_ close (Z.of_nat (length open) + 1)%Z)
  then open ++ replace_all close replacement text_ ++ close
  else open ++ text_ ++ close.

(** A code is [ESC] followed by units that are not [ESC]. *)
Definition well_formed (code : text) : Prop :=
  exists rest, code = ESC :: rest /\ ~ In ESC rest.

(** A text is guarded when it is empty or begins with [ESC]. *)
Definition guarded (s : text) : Prop :=
  s = [] \/ exists s', s = ESC :: s'.

(** [open] can never be read as the beginning of an occurrence of [close],
    whatever follows it. *)
Definition clashes (close open : text) : Prop :=
  forall w, starts_with close (open ++ w) = false.

(** * Proofs *)

(** ** Occurrences *)

Lemma starts_with_app (p v : text) : starts_with p (p ++ v) = true.
Proof.
  induction p as [|a p IH]; simpl; [reflexivity|].
  now rewrite N.eqb_refl.
Qed.

Lemma starts_with_true (p s : text) :
  starts_with p s = true -> s = p ++ skipn (length p) s.
Proof.
  revert s. induction p as [|a p IH]; intros [|b s] H; simpl in *;
    try reflexivity; try discriminate.
  apply andb_prop in H as [Hab Hs]. apply N.eqb_eq in Hab. subst b.
  f_equal. now apply IH.
Qed.

Lemma starts_with_length (p s : text) :
  starts_with p s = true -> length p <= length s.
Proof.
  intros H. apply starts_with_true in H.
  rewrite H, length_app. lia.
Qed.

Lemma starts_with_app_r (p x y : text) :
  starts_with p x = true -> starts_with p (x ++ y) = true.
Proof.
  intros H. apply starts_with_true in H. rewrite H, <- app_assoc.
  apply starts_with_app.
Qed.

Lemma starts_with_cons (a : N) (p : text) (b : N) (s : text) :
  starts_with (a :: p) (b :: s) = N.eqb a b && starts_with p s.
Proof. reflexivity. Qed.

Lemma starts_with_nil (p : text) : p <> [] -> starts_with p [] = false.
Proof. destruct p; [congruence | reflexivity]. Qed.

Lemma occurs_at_bound (p s : text) (k : nat) :
  p <> [] -> occurs_at p s k = true -> k + length p <= length s.
Proof.
  unfold occurs_at. intros Hp H.
  assert (k < length s).
  { destruct (Nat.lt_ge_cases k (length s)) as [|Hge]; [assumption|].
    rewrite skipn_all2 in H by assumption.
    rewrite starts_with_nil in H by assumption. discriminate. }
  apply starts_with_length in H. rewrite length_skipn in H. lia.
Qed.

Lemma occurs_at_skipn (p s : text) (n k : nat) :
  occurs_at p (skipn n s) k = occurs_at p s (n + k).
Proof.
  unfold occurs_at. rewrite skipn_skipn. f_equal. f_equal. lia.
Qed.

Lemma occurs_at_app_l (p x y : text) (k : nat) :
  occurs_at p x k = true -> occurs_at p (x ++ y) k = true.
Proof.
  unfold occurs_at. intros H.
  destruct (Nat.le_gt_cases k (length x)) as [Hk|Hk].
  - rewrite skipn_app.
    replace (k - length x) with 0 by lia. simpl.
    now apply starts_with_app_r.
  - rewrite skipn_all2 in H by lia.
    destruct p; [reflexivity | discriminate].
Qed.

Lemma occurs_at_app_r (p x y : text) (k : nat) :
  occurs_at p (x ++ y) (length x + k) = occurs_at p y k.
Proof.
  unfold occurs_at. rewrite skipn_app.
  rewrite skipn_all2 by lia.
  replace (length x + k - length x) with k by lia. reflexivity.
Qed.

(** ** [indexOf] finds the least occurrence at or after the start *)

Lemma find_at_cases (search s : text) (k : nat) :
  (find_at search s k = (-1)%Z /\
   forall j, j <= length s -> occurs_at search s j = false) \/
  (exists d, find_at search s k = Z.of_nat (k + d) /\
             occurs_at search s d = true /\
             forall j, j < d -> occurs_at search s j = false).
Proof.
  revert k. induction s as [|c s IH]; intros k.
  - simpl. destruct (starts_with search []) eqn:E.
    + right. exists 0. rewrite Nat.add_0_r. repeat split; auto.
      intros j Hj. lia.
    + left. split; [reflexivity|]. intros j Hj.
      unfold occurs_at. now rewrite skipn_nil.
  - simpl. destruct (starts_with search (c :: s)) eqn:E.
    + right. exists 0. rewrite Nat.add_0_r. repeat split; auto.
      intros j Hj. lia.
    + destruct (IH (S k)) as [[H1 H2]|[d [H1 [H2 H3]]]].
      * left. split; [assumption|]. intros [|j] Hj; [exact E|].
        apply H2. simpl in Hj. lia.
      * right. exists (S d). split; [|split].
        -- rewrite H1. f_equal. lia.
        -- exact H2.
        -- intros [|j] Hj; [exact E|]. apply H3. lia.
Qed.

Lemma clamp_of_nat (len p : nat) : clamp len (Z.of_nat p) = Nat.min p len.
Proof.
  unfold clamp. rewrite <- Nat2Z.inj_min.
  rewrite Z.max_r by apply Nat2Z.is_nonneg. apply Nat2Z.id.
Qed.

Lemma indexOf_cases (s search : text) (p : nat) :
  search <> [] ->
  (indexOf s search (Z.of_nat p) = (-1)%Z /\
   forall j, p <= j -> occurs_at search s j = false) \/
  (exists i, indexOf s search (Z.of_nat p) = Z.of_nat i /\
             p <= i /\
             occurs_at search s i = true /\
             forall j, p <= j < i -> occurs_at search s j = false).
Proof.
  intros Hne. unfold indexOf. rewrite clamp_of_nat.
  destruct (find_at_cases search (skipn (Nat.min p (length s)) s)
              (Nat.min p (length s))) as [[H1 H2]|[d [H1 [H2 H3]]]].
  - left. split; [assumption|]. intros j Hj.
    destruct (Nat.le_gt_cases j (length s)) as [Hle|Hgt].
    + specialize (H2 (j - Nat.min p (length s))).
      rewrite occurs_at_skipn in H2.
      replace (Nat.min p (length s) + (j - Nat.min p (length s))) with j in H2
        by lia.
      apply H2. rewrite length_skipn. lia.
    + unfold occurs_at. rewrite skipn_all2 by lia.
      now apply starts_with_nil.
  - rewrite occurs_at_skipn in H2.
    pose proof (occurs_at_bound _ _ _ Hne H2) as Hb.
    assert (0 < length search) by (destruct search; simpl; [congruence | lia]).
    right. exists (Nat.min p (length s) + d). split; [assumption|].
    split; [lia|]. split; [assumption|].
    intros j Hj.
    specialize (H3 (j - Nat.min p (length s))).
    rewrite occurs_at_skipn in H3.
    replace (Nat.min p (length s) + (j - Nat.min p (length s))) with j in H3
      by lia.
    apply H3. lia.
Qed.

Lemma found_of_nat (i : nat) : found (Z.of_nat i) = true.
Proof.
  unfold found. rewrite negb_true_iff, Z.eqb_neq.
  pose proof (Z.add_lnot_diag (Z.of_nat i)). lia.
Qed.

Lemma found_minus_one : found (-1) = false.
Proof. reflexivity. Qed.

(** When nothing occurs at or after [p], the search fails; when the least
    occurrence at or after [p] is at [i], the search returns [i]. *)
Lemma indexOf_none (s search : text) (p : nat) :
  search <> [] ->
  (forall j, p <= j -> occurs_at search s j = false) ->
  indexOf s search (Z.of_nat p) = (-1)%Z.
Proof.
  intros Hne Hno.
  destruct (indexOf_cases s search p Hne) as [[H _]|[i [_ [Hi [Ho _]]]]];
    [assumption|].
  rewrite Hno in Ho by assumption. discriminate.
Qed.

Lemma indexOf_least (s search : text) (p i : nat) :
  search <> [] ->
  p <= i ->
  occurs_at search s i = true ->
  (forall j, p <= j < i -> occurs_at search s j = false) ->
  indexOf s search (Z.of_nat p) = Z.of_nat i.
Proof.
  intros Hne Hpi Ho Hno.
  destruct (indexOf_cases s search p Hne) as [[_ H]|[i' [H [Hi' [Ho' Hno']]]]].
  - rewrite H in Ho by assumption. discriminate.
  - rewrite H. f_equal.
    destruct (Nat.lt_trichotomy i i') as [Hlt|[Heq|Hgt]]; [|congruence|].
    + rewrite Hno' in Ho by lia. discriminate.
    + rewrite Hno in Ho' by lia. discriminate.
Qed.

(** ** Unfolding [replace_all] *)

Lemma replace_all_match (close replace s : text) :
  close <> [] ->
  starts_with close s = true ->
  replace_all close replace s
  = replace ++ replace_all close replace (skipn (length close) s).
Proof.
  intros Hne H. destruct s as [|c s'].
  - rewrite starts_with_nil in H by assumption. discriminate.
  - simp replace_all. rewrite H. simpl.
    destruct close as [|a close']; [congruence|].
    simpl. now rewrite Nat.sub_0_r.
Qed.

Lemma replace_all_skip (close replace : text) (c : N) (s' : text) :
  starts_with close (c :: s') = false ->
  replace_all close replace (c :: s') = c :: replace_all close replace s'.
Proof.
  intros H. simp replace_all. rewrite H. reflexivity.
Qed.

Lemma replace_all_none (close replace s : text) :
  (forall j, occurs_at close s j = false) ->
  replace_all close replace s = s.
Proof.
  induction s as [|c s IH]; intros H.
  - now simp replace_all.
  - rewrite replace_all_skip by exact (H 0).
    f_equal. apply IH. intros j. exact (H (S j)).
Qed.

Lemma replace_all_prefix (close replace : text) (n : nat) (s : text) :
  (forall j, j < n -> occurs_at close s j = false) ->
  replace_all close replace s
  = firstn n s ++ replace_all close replace (skipn n s).
Proof.
  revert s. induction n as [|n IH]; intros s H; [reflexivity|].
  destruct s as [|c s]; [reflexivity|].
  rewrite replace_all_skip by (apply (H 0); lia).
  simpl. f_equal. apply IH. intros j Hj. apply (H (S j)). lia.
Qed.

(** ** The loop of [replaceClose] computes [replace_all] *)

Lemma substring_between (s : text) (a b : nat) :
  a <= b -> b <= length s ->
  substring s (Z.of_nat a) (Some (Z.of_nat b)) = firstn (b - a) (skipn a s).
Proof.
  intros Hab Hb. unfold substring. rewrite !clamp_of_nat.
  replace (Nat.min a (length s)) with a by lia.
  replace (Nat.min b (length s)) with b by lia.
  replace (Nat.min a b) with a by lia.
  replace (Nat.max a b) with b by lia. reflexivity.
Qed.

Lemma substring_from (s : text) (a : nat) :
  a <= length s -> substring s (Z.of_nat a) None = skipn a s.
Proof.
  intros Ha. unfold substring. rewrite clamp_of_nat.
  replace (Nat.min a (length s)) with a by lia.
  replace (Nat.min a (length s)) with a by lia.
  replace (Nat.max a (length s)) with (length s) by lia.
  apply firstn_all2. rewrite length_skipn. lia.
Qed.

Lemma length_pos (p : text) : p <> [] -> 0 < length p.
Proof. destruct p; simpl; [congruence | lia]. Qed.

(** One pass of the loop from a found [index]: the text between the cursor
    and the index is copied, and everything from the index on is rewritten
    by the left-to-right scan. *)
Lemma replaceClose_loop_correct (close replace s : text) :
  close <> [] ->
  forall fuel result cursor i,
    cursor <= i ->
    occurs_at close s i = true ->
    length s - i <= fuel ->
    replaceClose_loop fuel s close replace result
      (Z.of_nat cursor) (Z.of_nat i)
    = Some (result ++ firstn (i - cursor) (skipn cursor s)
                   ++ replace_all close replace (skipn i s)).
Proof.
  intros Hne. pose proof (length_pos _ Hne) as Hpos.
  induction fuel as [|fuel IH]; intros result cursor i Hci Hocc Hfuel;
    pose proof (occurs_at_bound _ _ _ Hne Hocc) as Hb; [lia|].
  cbn [replaceClose_loop].
  rewrite substring_between by lia.
  rewrite <- Nat2Z.inj_add.
  rewrite (replace_all_match close replace (skipn i s)) by assumption.
  rewrite skipn_skipn, (Nat.add_comm (length close)).
  destruct (indexOf_cases s close (i + length close) Hne)
    as [[Hidx Hnone]|[i' [Hidx [Hi' [Hocc' Hno']]]]]; rewrite Hidx.
  - rewrite found_minus_one. rewrite substring_from by lia.
    rewrite (replace_all_none close replace (skipn _ s)).
    + now rewrite <- !app_assoc.
    + intros j. rewrite occurs_at_skipn. apply Hnone. lia.
  - rewrite found_of_nat.
    rewrite IH; try assumption; try lia.
    rewrite (replace_all_prefix close replace (i' - (i + length close))
               (skipn (i + length close) s)).
    + rewrite skipn_skipn.
      replace (i' - (i + length close) + (i + length close)) with i' by lia.
      now rewrite <- !app_assoc.
    + intros j Hj. rewrite occurs_at_skipn. apply Hno'. lia.
Qed.

(** With an empty [close] the loop never leaves: every amount of fuel runs
    out. *)
Lemma replaceClose_loop_empty_close (replace s : text) :
  forall fuel result cursor index,
    replaceClose_loop fuel s [] replace result cursor index = None.
Proof.
  induction fuel as [|fuel IH]; intros result cursor index; [reflexivity|].
  cbn [replaceClose_loop].
  assert (Hf : found (indexOf s [] (index + Z.of_nat (length (@nil N))))
               = true).
  { unfold indexOf.
    destruct (skipn (clamp (length s) (index + Z.of_nat (length (@nil N)))) s);
      apply found_of_nat. }
  rewrite Hf. apply IH.
Qed.

(** ** The two branches of [formatter] *)

Lemma formatter_not_found (open close : text) (r : option text)
    (fuel : nat) (s : text) :
  close <> [] ->
  (forall j, length open <= j -> occurs_at close s j = false) ->
  formatter open close r fuel s = Some (open ++ s ++ close).
Proof.
  intros Hne Hno. unfold formatter.
  rewrite indexOf_none by assumption. now rewrite found_minus_one.
Qed.

Lemma formatter_found (open close : text) (r : option text)
    (fuel : nat) (s : text) (i : nat) :
  close <> [] ->
  length open <= i ->
  occurs_at close s i = true ->
  (forall j, length open <= j < i -> occurs_at close s j = false) ->
  length s <= fuel ->
  formatter open close r fuel s
  = Some (open ++ (firstn i s
                   ++ replace_all close (default_replace open r) (skipn i s))
               ++ close).
Proof.
  intros Hne Hi Hocc Hno Hfuel. unfold formatter.
  rewrite (indexOf_least s close (length open) i) by assumption.
  rewrite found_of_nat. unfold replaceClose.
  change 0%Z with (Z.of_nat 0).
  rewrite replaceClose_loop_correct by (assumption || lia).
  rewrite Nat.sub_0_r. reflexivity.
Qed.

(** ** Codes that begin with [ESC] and contain no other [ESC] *)

Lemma esc_free_app_guarded (r x y : text) :
  ~ In ESC r -> guarded y ->
  starts_with r (x ++ y) = starts_with r x.
Proof.
  revert r. induction x as [|c x IH]; intros r Hr Hy.
  - simpl. destruct r as [|a r]; [reflexivity|].
    destruct Hy as [->|[y' ->]]; [reflexivity|].
    rewrite starts_with_cons.
    replace (N.eqb a ESC) with false; [reflexivity|].
    symmetry. apply N.eqb_neq. intros ->. apply Hr. now left.
  - destruct r as [|a r]; [reflexivity|].
    cbn [app]. rewrite !starts_with_cons.
    rewrite IH; [reflexivity| |assumption].
    intros Hin. apply Hr. now right.
Qed.

Lemma well_formed_nonempty (p : text) : well_formed p -> p <> [].
Proof. intros [rest [-> _]]. discriminate. Qed.

Lemma well_formed_guarded (p : text) (w : text) :
  well_formed p -> guarded (p ++ w).
Proof. intros [rest [-> _]]. right. now exists (rest ++ w). Qed.

Lemma occurs_guarded (p s : text) (k : nat) :
  well_formed p -> occurs_at p s k = true -> guarded (skipn k s).
Proof.
  intros Hp H. apply starts_with_true in H. rewrite H.
  now apply well_formed_guarded.
Qed.

(** An occurrence that begins inside [x] lies inside [x] when what follows
    is guarded. *)
Lemma occurs_at_app_guarded (p x y : text) (k : nat) :
  well_formed p -> guarded y -> k < length x ->
  occurs_at p (x ++ y) k = occurs_at p x k.
Proof.
  intros [rest [-> Hrest]] Hy Hk. unfold occurs_at.
  rewrite skipn_app. replace (k - length x) with 0 by lia. rewrite skipn_O.
  destruct (skipn k x) as [|c x'] eqn:E.
  - apply (f_equal (@length N)) in E. rewrite length_skipn in E.
    simpl in E. lia.
  - cbn [app]. rewrite !starts_with_cons.
    now rewrite esc_free_app_guarded.
Qed.

(** A unit inside a well-formed code, past its first, starts no
    occurrence. *)
Lemma occurs_at_inside_code (p o w : text) (k : nat) :
  well_formed p -> well_formed o -> 0 < k < length o ->
  occurs_at p (o ++ w) k = false.
Proof.
  intros [rest [-> _]] [orest [-> Horest]] Hk. unfold occurs_at.
  rewrite skipn_app. replace (k - length (ESC :: orest)) with 0 by lia.
  destruct k as [|k]; [lia|]. cbn [skipn app length] in *.
  destruct (skipn k orest) as [|c t] eqn:E.
  - apply (f_equal (@length N)) in E. rewrite length_skipn in E.
    simpl in E. lia.
  - cbn [app]. rewrite starts_with_cons.
    replace (N.eqb ESC c) with false; [reflexivity|].
    symmetry. apply N.eqb_neq. intros <-. apply Horest.
    rewrite <- (firstn_skipn k orest). apply in_or_app. right.
    rewrite E. now left.
Qed.

(** Two occurrences of a well-formed code never overlap. *)
Lemma occurs_no_overlap (p s : text) (k i : nat) :
  well_formed p ->
  occurs_at p s k = true -> occurs_at p s i = true -> k < i ->
  k + length p <= i.
Proof.
  intros Hp Hk Hi Hlt.
  pose proof (well_formed_nonempty _ Hp) as Hne.
  pose proof (occurs_at_bound _ _ _ Hne Hi) as Hb.
  pose proof (occurs_guarded _ _ _ Hp Hi) as Hg.
  rewrite <- (firstn_skipn i s) in Hk.
  rewrite occurs_at_app_guarded in Hk; try assumption.
  - apply occurs_at_bound in Hk; [|assumption].
    rewrite length_firstn in Hk. lia.
  - rewrite length_firstn. lia.
Qed.

(** The scan distributes over an occurrence of a well-formed code. *)
Lemma replace_all_app_close (close replace : text) :
  well_formed close ->
  forall n u v, length u <= n ->
    replace_all close replace (u ++ close ++ v)
    = replace_all close replace u ++ replace
      ++ replace_all close replace v.
Proof.
  intros Hwf. pose proof (well_formed_nonempty _ Hwf) as Hne.
  pose proof (length_pos _ Hne) as Hpos.
  induction n as [|n IH]; intros u v Hn.
  - destruct u; [|simpl in Hn; lia]. simpl.
    rewrite replace_all_match by (assumption || apply starts_with_app).
    rewrite skipn_app, skipn_all, Nat.sub_diag. simpl.
    now simp replace_all.
  - destruct u as [|c u].
    + simpl. rewrite replace_all_match by (assumption || apply starts_with_app).
      rewrite skipn_app, skipn_all, Nat.sub_diag. simpl.
      now simp replace_all.
    + pose proof (occurs_at_app_guarded close (c :: u) (close ++ v) 0 Hwf
                    (well_formed_guarded close v Hwf)) as Hsame.
      unfold occurs_at in Hsame. simpl skipn in Hsame.
      specialize (Hsame ltac:(simpl; lia)).
      destruct (starts_with close (c :: u)) eqn:E.
      * pose proof (starts_with_length _ _ E) as Hlen.
        rewrite (replace_all_match close replace ((c :: u) ++ close ++ v))
          by assumption.
        rewrite (replace_all_match close replace (c :: u)) by assumption.
        rewrite skipn_app. replace (length close - length (c :: u)) with 0
          by lia.
        rewrite skipn_O, IH.
        -- now rewrite <- !app_assoc.
        -- rewrite length_skipn. simpl in *. lia.
      * rewrite <- app_comm_cons.
        rewrite replace_all_skip by (rewrite app_comm_cons; assumption).
        rewrite replace_all_skip by assumption.
        rewrite IH by (simpl in Hn; lia). reflexivity.
Qed.

(** ** The rewritten text contains no occurrence of [close] *)

Lemma replace_all_esc_free_prefix (close replace : text) :
  well_formed close -> well_formed replace ->
  forall s r, ~ In ESC r ->
    starts_with r (replace_all close replace s) = starts_with r s.
Proof.
  intros Hwf [rrest [-> _]]. pose proof (well_formed_nonempty _ Hwf) as Hne.
  destruct Hwf as [rest [-> Hrest]].
  induction s as [|c s IH]; intros r Hr.
  - now simp replace_all.
  - destruct r as [|a r]; [reflexivity|].
    assert (Ha : N.eqb a ESC = false).
    { apply N.eqb_neq. intros ->. apply Hr. now left. }
    destruct (starts_with (ESC :: rest) (c :: s)) eqn:E.
    + rewrite replace_all_match by assumption.
      rewrite starts_with_cons in E. apply andb_prop in E as [Ec _].
      apply N.eqb_eq in Ec. subst c.
      cbn [app]. rewrite !starts_with_cons, Ha. reflexivity.
    + rewrite replace_all_skip by assumption.
      rewrite !starts_with_cons. rewrite IH; [reflexivity|].
      intros Hin. apply Hr. now right.
Qed.

Lemma replace_all_no_occurrence (close open : text) :
  well_formed close -> well_formed open -> clashes close open ->
  forall n s, length s <= n ->
    forall k, occurs_at close (replace_all close open s) k = false.
Proof.
  intros Hwf Hopen Hclash.
  pose proof (well_formed_nonempty _ Hwf) as Hne.
  pose proof (length_pos _ Hne) as Hpos.
  induction n as [|n IH]; intros s Hn k.
  - destruct s; [|simpl in Hn; lia]. simp replace_all.
    unfold occurs_at. rewrite skipn_nil. now apply starts_with_nil.
  - destruct s as [|c s].
    + simp replace_all.
      unfold occurs_at. rewrite skipn_nil. now apply starts_with_nil.
    + destruct (starts_with close (c :: s)) eqn:E.
      * rewrite replace_all_match by assumption.
        destruct (Nat.lt_ge_cases k (length open)) as [Hk|Hk].
        -- destruct k as [|k]; [apply Hclash|].
           apply occurs_at_inside_code; try assumption. lia.
        -- replace k with (length open + (k - length open)) by lia.
           rewrite occurs_at_app_r. apply IH.
           rewrite length_skipn. simpl in *. lia.
      * rewrite replace_all_skip by assumption.
        destruct k as [|k].
        -- unfold occurs_at. rewrite skipn_O.
           destruct Hwf as [rest [-> Hrest]].
           rewrite starts_with_cons in *.
           rewrite replace_all_esc_free_prefix; try assumption.
           now exists rest.
        -- unfold occurs_at. cbn [skipn]. apply IH. simpl in Hn. lia.
Qed.

(** In [open ++ u ++ close], with no occurrence of [close] inside [u], the
    only occurrence of [close] is the trailing one. *)
Lemma only_trailing_close (open close u : text) :
  well_formed close -> well_formed open -> clashes close open ->
  (forall k, occurs_at close u k = false) ->
  forall k, occurs_at close (open ++ u ++ close) k = true ->
            k = length open + length u.
Proof.
  intros Hwf Hopen Hclash Hu k Hk.
  pose proof (well_formed_nonempty _ Hwf) as Hne.
  destruct (Nat.lt_ge_cases k (length open)) as [Hlt|Hge].
  - destruct k as [|k].
    + unfold occurs_at in Hk. rewrite skipn_O, Hclash in Hk. discriminate.
    + rewrite occurs_at_inside_code in Hk; try assumption; [discriminate|lia].
  - replace k with (length open + (k - length open)) in Hk by lia.
    rewrite occurs_at_app_r in Hk.
    destruct (Nat.lt_ge_cases (k - length open) (length u)) as [Hlt|Hge'].
    + rewrite occurs_at_app_guarded in Hk; try assumption.
      * rewrite Hu in Hk. discriminate.
      * rewrite <- (app_nil_r close). now apply well_formed_guarded.
    + replace (k - length open)
        with (length u + (k - length open - length u)) in Hk by lia.
      rewrite occurs_at_app_r in Hk.
      destruct (k - length open - length u) as [|d] eqn:Ed; [lia|].
      exfalso.
      destruct (Nat.lt_ge_cases (S d) (length close)) as [Hd|Hd].
      * rewrite <- (app_nil_r close) in Hk at 2.
        rewrite occurs_at_inside_code in Hk; try assumption;
          [discriminate|lia].
      * unfold occurs_at in Hk. rewrite skipn_all2 in Hk by lia.
        rewrite starts_with_nil in Hk by assumption. discriminate.
Qed.

(** ** The result of [formatter], in one equation *)

Lemma firstn_split (s : text) (n i : nat) :
  n <= i ->
  firstn i s = firstn n s ++ firstn (i - n) (skipn n s).
Proof.
  intros Hni. rewrite <- (firstn_skipn n s) at 1.
  rewrite firstn_app, firstn_firstn.
  replace (Nat.min i n) with n by lia.
  rewrite length_firstn.
  destruct (Nat.le_gt_cases n (length s)) as [Hle|Hgt].
  - now replace (i - Nat.min n (length s)) with (i - n) by lia.
  - rewrite (skipn_all2 s) by lia. now rewrite !firstn_nil.
Qed.

(** The first [length open] units of the input are copied; from there on
    every occurrence of [close] met by the left-to-right scan is replaced. *)
Lemma formatter_resequence (open close : text) (r : option text)
    (fuel : nat) (s : text) :
  close <> [] ->
  length s <= fuel ->
  formatter open close r fuel s
  = Some (open ++ (firstn (length open) s
                   ++ replace_all close (default_replace open r)
                        (skipn (length open) s))
               ++ close).
Proof.
  intros Hne Hfuel.
  destruct (indexOf_cases s close (length open) Hne)
    as [[_ Hnone]|[i [_ [Hi [Hocc Hno]]]]].
  - rewrite formatter_not_found by assumption.
    rewrite replace_all_none.
    + now rewrite firstn_skipn.
    + intros j. rewrite occurs_at_skipn. apply Hnone. lia.
  - rewrite (formatter_found open close r fuel s i) by assumption.
    rewrite (replace_all_prefix close _ (i - length open)
               (skipn (length open) s)).
    + rewrite skipn_skipn.
      replace (i - length open + length open) with i by lia.
      rewrite (firstn_split s (length open) i) by assumption.
      now rewrite <- !app_assoc.
    + intros j Hj. rewrite occurs_at_skipn. apply Hno. lia.
Qed.

(** ** Facts about the table *)

Lemma createColors_enabled (st : style) :
  cf_style (createColors true) st
  = formatter (style_open st) (style_close st) (snd (style_args st)).
Proof. destruct st; reflexivity. Qed.

Lemma style_close_well_formed (st : style) : well_formed (style_close st).
Proof.
  destruct st; eexists; (split; [reflexivity|]);
    cbv; intuition discriminate.
Qed.

Lemma style_open_well_formed (st : style) : well_formed (style_open st).
Proof.
  destruct st; eexists; (split; [reflexivity|]);
    cbv; intuition discriminate.
Qed.

Lemma style_close_nonempty (st : style) : style_close st <> [].
Proof. apply well_formed_nonempty, style_close_well_formed. Qed.

(** Apart from [reset], no open code can be read as the start of the
    style's own close code. *)
Lemma style_open_clashes (st : style) :
  st <> reset -> clashes (style_close st) (style_open st).
Proof.
  intros Hst w. destruct st; try congruence; reflexivity.
Qed.

(** * The claims *)

(** ** The capability detector *)

Module DetectorFacts.
Import Detector.

Lemma truthy_get (e : gmap string string) (name : string) :
  truthy (get e name) = is_set e name.
Proof. unfold get, is_set. now destruct (e !! name). Qed.

Lemma js_not_not (v : value) : js_not (js_not v) = VBool (truthy v).
Proof. unfold js_not. simpl. now rewrite negb_involutive. Qed.

Lemma js_or_bool (a b : bool) : js_or (VBool a) (VBool b) = VBool (a || b).
Proof. now destruct a. Qed.

Lemma js_and_bool (a b : bool) :
  js_and (VBool a) (VBool b) = VBool (a && b).
Proof. now destruct a. Qed.

Lemma strict_ne_dumb (e : gmap string string) :
  strict_ne (get e "TERM") (VString "dumb")
  = VBool (negb match e !! "TERM" with
                | Some v => String.eqb v "dumb"
                | None => false
                end).
Proof.
  unfold strict_ne, strict_eq, js_not, get. now destruct (e !! "TERM").
Qed.

(** The detector's expression always evaluates to a boolean, the one the
    precedence rule gives. *)
Lemma isColorSupported_rule (process : option Process) :
  isColorSupported process = VBool (precedence_rule (signals_of process)).
Proof.
  unfold isColorSupported, signals_of, precedence_rule, includes.
  destruct process as [[a e pl so]|]; cbn [argv env platform stdout isTTY
    NO_COLOR_set no_color_flag FORCE_COLOR_set color_flag windows tty
    TERM_dumb CI_set].
  - rewrite !js_not_not, !truthy_get, strict_ne_dumb.
    set (E := match e with Some e0 => e0 | None => ∅ end).
    set (A := match a with Some a0 => a0 | None => [] end).
    assert (Hpl : strict_eq (of_string pl) (VString "win32")
                  = VBool match pl with
                          | Some s => String.eqb s "win32"
                          | None => false
                          end) by now destruct pl.
    rewrite Hpl.
    destruct (is_set E "NO_COLOR"), (existsb (String.eqb "--no-color") A),
      (is_set E "FORCE_COLOR"), (existsb (String.eqb "--color") A),
      (match pl with Some s => String.eqb s "win32" | None => false end),
      (match E !! "TERM" with Some v => String.eqb v "dumb" | None => false end),
      (is_set E "CI"); destruct so as [[[[|]|]]|]; reflexivity.
  - rewrite !js_not_not, !truthy_get, strict_ne_dumb. reflexivity.
Qed.

End DetectorFacts.

(** * Claims about the program *)

(** The usage example of the README, [bold(red("Hello"))]: the close code of
    [bold] does not occur in [red("Hello")], so nothing is rewritten. *)
Example bold_red_hello :
  nested (cf_style (createColors true) bold) (cf_style (createColors true) red)
    0 (lit "Hello")
  = Some (esc "[1m" ++ (esc "[31m" ++ lit "Hello" ++ esc "[39m")
          ++ esc "[22m").
Proof. reflexivity. Qed.

(** A variable that is present but empty counts as not set: [!!""] is
    [false]. *)
Example empty_FORCE_COLOR_is_unset :
  Detector.isColorSupported
    (Some {| Detector.argv := Some [];
             Detector.env := Some {[ "FORCE_COLOR"%string := EmptyString ]};
             Detector.platform := Some "linux"%string;
             Detector.stdout := None |})
  = Detector.VBool false.
Proof. reflexivity. Qed.

(** Without any signal a terminal that is not dumb enables color, and
    [NO_COLOR] overrides it. *)
Example tty_enables_NO_COLOR_disables :
  Detector.isColorSupported
    (Some {| Detector.argv := None;
             Detector.env := Some {[ "TERM"%string := "xterm"%string ]};
             Detector.platform := Some "linux"%string;
             Detector.stdout := Some {| Detector.isTTY := Some true |} |})
  = Detector.VBool true
  /\ Detector.isColorSupported
       (Some {| Detector.argv := Some ["--color"%string];
                Detector.env := Some {[ "NO_COLOR"%string := "1"%string ]};
                Detector.platform := Some "win32"%string;
                Detector.stdout := Some {| Detector.isTTY := Some true |} |})
     = Detector.VBool false.
Proof. split; reflexivity. Qed.

(** C2.  The detector yields [false] whenever [NO_COLOR] is set (to a
    non-empty value) or [--no-color] is among the arguments, whatever the
    enabling signals; otherwise it yields [true] exactly when [FORCE_COLOR]
    is set, or [--color] is among the arguments, or the platform is
    [win32], or stdout is a TTY and [TERM] is not ["dumb"], or [CI] is set.
    The expression always evaluates to a boolean; a missing [process]
    object, environment or argument list behaves as an empty one.  "Set"
    is read throughout as in the rule's first step: present with a
    non-empty value. *)
Theorem C2_detector_precedence (process : option Detector.Process) :
  Detector.isColorSupported process
  = Detector.VBool (Detector.precedence_rule (Detector.signals_of process))
  /\ Detector.isColorSupported None = Detector.VBool false
  /\ (forall a pl so,
        Detector.isColorSupported
          (Some {| Detector.argv := a; Detector.env := None;
                   Detector.platform := pl; Detector.stdout := so |})
        = Detector.isColorSupported
            (Some {| Detector.argv := a; Detector.env := Some ∅;
                     Detector.platform := pl; Detector.stdout := so |}))
  /\ (forall e pl so,
        Detector.isColorSupported
          (Some {| Detector.argv := None; Detector.env := e;
                   Detector.platform := pl; Detector.stdout := so |})
        = Detector.isColorSupported
            (Some {| Detector.argv := Some []; Detector.env := e;
                     Detector.platform := pl; Detector.stdout := so |})).
Proof.
  split; [apply DetectorFacts.isColorSupported_rule|].
  split; [reflexivity|]. split; reflexivity.
Qed.

(** C3.  In the table built with [enabled = false] every style function
    returns its input unchanged, whatever the input contains; in particular
    [red("x")] is ["x"]. *)
Theorem C3_disabled_is_identity (st : style) (fuel : nat) (s : text) :
  cf_style (createColors false) st fuel s = Some s
  /\ cf_style (createColors false) red fuel (lit "x") = Some (lit "x")
  /\ cf_isColorSupported (createColors false) = false.
Proof.
  split; [destruct st; reflexivity|]. split; reflexivity.
Qed.

(** C5.  With color enabled, [bold(dim("x"))] is
    [ESC[1m ESC[2m x ESC[22mESC[1m ESC[22m] and [dim(bold("x"))] is
    [ESC[2m ESC[1m x ESC[22mESC[2m ESC[22m]: the inner close is followed at
    once by the outer style's own open code. *)
Theorem C5_bold_dim_nesting (fuel : nat) :
  1 <= fuel ->
  nested (cf_style (createColors true) bold) (cf_style (createColors true) dim)
    fuel (lit "x")
  = Some (esc "[1m" ++ esc "[2m" ++ lit "x"
          ++ (esc "[22m" ++ esc "[1m") ++ esc "[22m")
  /\ nested (cf_style (createColors true) dim)
       (cf_style (createColors true) bold) fuel (lit "x")
     = Some (esc "[2m" ++ esc "[1m" ++ lit "x"
             ++ (esc "[22m" ++ esc "[2m") ++ esc "[22m").
Proof.
  intros Hfuel. destruct fuel as [|fuel]; [lia|].
  split; reflexivity.
Qed.

Lemma C5_bold_dim_nesting_witness :
  1 <= 1
  /\ nested (cf_style (createColors true) bold)
       (cf_style (createColors true) dim) 1 (lit "x")
     = Some (esc "[1m" ++ esc "[2m" ++ lit "x"
             ++ (esc "[22m" ++ esc "[1m") ++ esc "[22m").
Proof.
  split; [lia|]. apply (C5_bold_dim_nesting 1). lia.
Defined.

(** C6.  For every style of the enabled table and every text [s] that
    contains no escape character, the style function returns
    [open ++ s ++ close]. *)
Theorem C6_plain_text_is_wrapped (st : style) (fuel : nat) (s : text) :
  ~ In ESC s ->
  cf_style (createColors true) st fuel s
  = Some (style_open st ++ s ++ style_close st).
Proof.
  intros Hs. rewrite createColors_enabled.
  apply formatter_not_found; [apply style_close_nonempty|].
  intros j _. destruct (occurs_at (style_close st) s j) eqn:E; [|reflexivity].
  exfalso. apply Hs.
  destruct (style_close_well_formed st) as [rest [Hc _]].
  unfold occurs_at in E. apply starts_with_true in E. rewrite Hc in E.
  rewrite <- (firstn_skipn j s). apply in_or_app. right.
  rewrite E. now left.
Qed.

Lemma C6_plain_text_is_wrapped_witness :
  ~ In ESC (lit "Hello")
  /\ cf_style (createColors true) red 0 (lit "Hello")
     = Some (esc "[31m" ++ lit "Hello" ++ esc "[39m").
Proof.
  assert (H : ~ In ESC (lit "Hello")) by (cbv; intuition discriminate).
  split; [exact H|]. exact (C6_plain_text_is_wrapped red 0 (lit "Hello") H).
Defined.

(** C10.  For every style of the enabled table and every input, the result
    begins with the style's open code and ends with its close code, whether
    or not an occurrence of the close code was found. *)
Theorem C10_open_prefix_close_suffix (st : style) (fuel : nat) (s : text) :
  length s <= fuel ->
  exists middle,
    cf_style (createColors true) st fuel s
    = Some (style_open st ++ middle ++ style_close st).
Proof.
  intros Hfuel. rewrite createColors_enabled.
  rewrite formatter_resequence by (apply style_close_nonempty || assumption).
  eexists. reflexivity.
Qed.

Lemma C10_open_prefix_close_suffix_witness :
  length (lit "a" ++ esc "[39m" ++ lit "b") <= 7
  /\ exists middle,
       cf_style (createColors true) red 7 (lit "a" ++ esc "[39m" ++ lit "b")
       = Some (esc "[31m" ++ middle ++ esc "[39m").
Proof.
  split; [simpl; lia|].
  apply (C10_open_prefix_close_suffix red 7 (lit "a" ++ esc "[39m" ++ lit "b")).
  simpl; lia.
Defined.

(** The search of [formatter] starts at index [length open] itself: an
    occurrence that begins exactly there is found and replaced. *)
Lemma formatter_offset_inclusive :
  occurs_at (style_close bold) (lit "abcd" ++ esc "[22m")
    (length (style_open bold)) = true
  /\ cf_style (createColors true) bold 1 (lit "abcd" ++ esc "[22m")
     = Some (esc "[1m" ++ (lit "abcd" ++ esc "[22m" ++ esc "[1m")
             ++ esc "[22m").
Proof. split; reflexivity. Qed.

(** C1 as stated fails.  In [bold(ESC[22m abcd ESC[22m)] an occurrence of the
    close code exists after index [length open = 4] (at index 9), so the
    stated contract replaces every occurrence; the code leaves the
    occurrence at index 0 as it is and replaces only the one at index 9. *)
Lemma C1_counterexample :
  occurs_at (style_close bold) (esc "[22m" ++ lit "abcd" ++ esc "[22m") 9
  = true
  /\ cf_style (createColors true) bold 10
       (esc "[22m" ++ lit "abcd" ++ esc "[22m")
     = Some (esc "[1m"
             ++ (esc "[22m" ++ lit "abcd" ++ (esc "[22m" ++ esc "[1m"))
             ++ esc "[22m")
  /\ spec_wrap (esc "[22m" ++ lit "abcd" ++ esc "[22m")
       (style_open bold) (style_close bold) (style_replace bold)
     = esc "[1m"
       ++ ((esc "[22m" ++ esc "[1m") ++ lit "abcd" ++ (esc "[22m" ++ esc "[1m"))
       ++ esc "[22m"
  /\ cf_style (createColors true) bold 10
       (esc "[22m" ++ lit "abcd" ++ esc "[22m")
     <> Some (spec_wrap (esc "[22m" ++ lit "abcd" ++ esc "[22m")
                (style_open bold) (style_close bold) (style_replace bold)).
Proof.
  split; [reflexivity|]. split; [reflexivity|]. split; [reflexivity|].
  vm_compute. discriminate.
Qed.

(** C1, amended.  For every style of the enabled table, the first occurrence
    of [close] in the text is sought at or after index [length open]
    (inclusive).  If there is none, the result is [open ++ text ++ close].
    If the first one is at index [i], the text before [i] is kept as it is,
    every occurrence of [close] from [i] on is replaced by the replacement
    (scanning left to right), and the result is wrapped in [open] and
    [close].  In both cases the result is [open], the first [length open]
    units of the text, the rest of the text with every occurrence replaced,
    and [close]. *)
Theorem C1_wrap_contract (st : style) (fuel : nat) (s : text) :
  length s <= fuel ->
  cf_style (createColors true) st fuel s
  = Some (style_open st
          ++ (firstn (length (style_open st)) s
              ++ replace_all (style_close st) (style_replace st)
                   (skipn (length (style_open st)) s))
          ++ style_close st)
  /\ ((forall j, length (style_open st) <= j ->
                 occurs_at (style_close st) s j = false) ->
      cf_style (createColors true) st fuel s
      = Some (style_open st ++ s ++ style_close st))
  /\ (forall i,
        length (style_open st) <= i ->
        occurs_at (style_close st) s i = true ->
        (forall j, length (style_open st) <= j < i ->
                   occurs_at (style_close st) s j = false) ->
        cf_style (createColors true) st fuel s
        = Some (style_open st
                ++ (firstn i s
                    ++ replace_all (style_close st) (style_replace st)
                         (skipn i s))
                ++ style_close st)).
Proof.
  intros Hfuel. rewrite createColors_enabled.
  pose proof (style_close_nonempty st) as Hne.
  split; [|split].
  - now apply formatter_resequence.
  - intros Hno. now apply formatter_not_found.
  - intros i Hi Hocc Hno. now apply formatter_found.
Qed.

Lemma C1_wrap_contract_witness :
  length (esc "[22m" ++ lit "abcd" ++ esc "[22m") <= 14
  /\ cf_style (createColors true) bold 14
       (esc "[22m" ++ lit "abcd" ++ esc "[22m")
     = Some (style_open bold
             ++ (firstn 4 (esc "[22m" ++ lit "abcd" ++ esc "[22m")
                 ++ replace_all (style_close bold) (style_replace bold)
                      (skipn 4 (esc "[22m" ++ lit "abcd" ++ esc "[22m")))
             ++ style_close bold).
Proof.
  assert (H : length (esc "[22m" ++ lit "abcd" ++ esc "[22m") <= 14)
    by (simpl; lia).
  split; [exact H|].
  exact (proj1 (C1_wrap_contract bold 14
                  (esc "[22m" ++ lit "abcd" ++ esc "[22m") H)).
Defined.

(** C9.  For every style of the enabled table: when the first occurrence of
    [close] at or after index [length open] is at index [i], the text before
    [i] is copied to the result unchanged, and every occurrence of [close]
    that begins before [i] is still an occurrence of [close] at the
    corresponding place of the result; when every occurrence of [close]
    begins before index [length open], the result is [open ++ input ++
    close]. *)
Theorem C9_early_occurrences_verbatim (st : style) (fuel : nat) (s : text) :
  length s <= fuel ->
  (forall i,
     length (style_open st) <= i ->
     occurs_at (style_close st) s i = true ->
     (forall j, length (style_open st) <= j < i ->
                occurs_at (style_close st) s j = false) ->
     exists tail,
       cf_style (createColors true) st fuel s
       = Some (style_open st ++ (firstn i s ++ tail) ++ style_close st)
       /\ forall k, k < i ->
            occurs_at (style_close st) s k = true ->
            occurs_at (style_close st)
              (style_open st ++ (firstn i s ++ tail) ++ style_close st)
              (length (style_open st) + k) = true)
  /\ ((forall k, occurs_at (style_close st) s k = true ->
                 k < length (style_open st)) ->
      cf_style (createColors true) st fuel s
      = Some (style_open st ++ s ++ style_close st)).
Proof.
  intros Hfuel. rewrite createColors_enabled.
  pose proof (style_close_nonempty st) as Hne.
  pose proof (style_close_well_formed st) as Hwf.
  split.
  - intros i Hi Hocc Hno.
    exists (replace_all (style_close st) (style_replace st) (skipn i s)).
    split; [now apply formatter_found|].
    intros k Hk Hocck.
    pose proof (occurs_no_overlap _ _ _ _ Hwf Hocck Hocc Hk) as Hfit.
    pose proof (occurs_at_bound _ _ _ Hne Hocc) as Hb.
    rewrite occurs_at_app_r, <- app_assoc.
    apply occurs_at_app_l.
    rewrite <- (firstn_skipn i s) in Hocck.
    rewrite occurs_at_app_guarded in Hocck; try assumption.
    + now apply (occurs_guarded (style_close st)).
    + rewrite length_firstn. lia.
  - intros Hearly. apply formatter_not_found; [assumption|].
    intros j Hj.
    destruct (occurs_at (style_close st) s j) eqn:E; [|reflexivity].
    apply Hearly in E. lia.
Qed.

Lemma C9_early_occurrences_verbatim_witness :
  length (esc "[22m" ++ lit "abcd" ++ esc "[22m") <= 14
  /\ (exists tail,
        cf_style (createColors true) bold 14
          (esc "[22m" ++ lit "abcd" ++ esc "[22m")
        = Some (style_open bold
                ++ (firstn 9 (esc "[22m" ++ lit "abcd" ++ esc "[22m") ++ tail)
                ++ style_close bold)
        /\ forall k, k < 9 ->
             occurs_at (style_close bold)
               (esc "[22m" ++ lit "abcd" ++ esc "[22m") k = true ->
             occurs_at (style_close bold)
               (style_open bold
                ++ (firstn 9 (esc "[22m" ++ lit "abcd" ++ esc "[22m") ++ tail)
                ++ style_close bold)
               (length (style_open bold) + k) = true)
  /\ cf_style (createColors true) bold 14 (esc "[22m")
     = Some (style_open bold ++ esc "[22m" ++ style_close bold).
Proof.
  assert (H : length (esc "[22m" ++ lit "abcd" ++ esc "[22m") <= 14)
    by (simpl; lia).
  assert (H' : length (esc "[22m") <= 14) by (simpl; lia).
  split; [exact H|]. split.
  - apply (proj1 (C9_early_occurrences_verbatim bold 14
                    (esc "[22m" ++ lit "abcd" ++ esc "[22m") H) 9).
    + simpl; lia.
    + reflexivity.
    + intros j Hj. simpl in Hj.
      do 9 (destruct j as [|j]; [try reflexivity; lia|]). lia.
  - apply (proj2 (C9_early_occurrences_verbatim bold 14 (esc "[22m") H')).
    intros k Hk. simpl.
    destruct k as [|k]; [lia|].
    do 5 (destruct k as [|k]; [discriminate Hk|]).
    unfold occurs_at in Hk. rewrite skipn_all2 in Hk by (simpl; lia).
    discriminate Hk.
Defined.

(** Every style but [bold] and [dim] uses its own open code as the
    replacement. *)
Lemma style_replace_is_open (st : style) :
  st <> bold -> st <> dim -> style_replace st = style_open st.
Proof. intros Hb Hd. destruct st; try congruence; reflexivity. Qed.

(** C4 as stated fails.  [red] and [bold] have distinct close codes, yet in
    [red(bold(ESC[39m))] the occurrence of red's close code at index 4 of
    [bold(ESC[39m)] lies before index [length open = 5], is not found, and
    stays in the result at index 9, well before the trailing close at
    index 19. *)
Lemma C4_counterexample :
  style_close red <> style_close bold
  /\ nested (cf_style (createColors true) red)
       (cf_style (createColors true) bold) 5 (esc "[39m")
     = Some (esc "[31m" ++ (esc "[1m" ++ esc "[39m" ++ esc "[22m")
             ++ esc "[39m")
  /\ occurs_at (style_close red)
       (esc "[31m" ++ (esc "[1m" ++ esc "[39m" ++ esc "[22m") ++ esc "[39m")
       9 = true
  /\ 9 < length (esc "[31m" ++ (esc "[1m" ++ esc "[39m" ++ esc "[22m")
                 ++ esc "[39m")
         - length (style_close red).
Proof.
  split; [vm_compute; discriminate|].
  split; [reflexivity|]. split; [reflexivity|]. simpl; lia.
Qed.

(** The replacements of [reset], [bold] and [dim] begin with the style's own
    close code. *)
Lemma replacement_begins_with_close (st : style) :
  st = reset \/ st = bold \/ st = dim ->
  occurs_at (style_close st) (style_replace st) 0 = true.
Proof. intros [->|[->| ->]]; reflexivity. Qed.

(** The replacement of [bold] itself contains bold's close code, so the
    result of rewriting still shows the raw close code before the trailing
    one: [bold(red(dim("x")))]. *)
Lemma bold_replacement_contains_close :
  nested (cf_style (createColors true) bold)
    (nested (cf_style (createColors true) red)
       (cf_style (createColors true) dim)) 9 (lit "x")
  = Some (esc "[1m"
          ++ (esc "[31m" ++ esc "[2m" ++ lit "x"
              ++ (esc "[22m" ++ esc "[1m") ++ esc "[39m")
          ++ esc "[22m")
  /\ occurs_at (style_close bold)
       (esc "[1m"
        ++ (esc "[31m" ++ esc "[2m" ++ lit "x"
            ++ (esc "[22m" ++ esc "[1m") ++ esc "[39m")
        ++ esc "[22m") 14 = true.
Proof. split; reflexivity. Qed.

(** C4, amended.  For any outer style [A] other than [reset], [bold] and
    [dim], any inner style [B] and any string [s] such that no occurrence of
    [A]'s close code begins before index [length (open A)] in [B(s)]: the
    result [A(B(s))] is [A]'s open code, then [B(s)] with every occurrence of
    [A]'s close code rewritten to [A]'s replacement, then [A]'s close code;
    and [A]'s close code occurs in it only as the trailing close. *)
Theorem C4_nesting_invariant (A B : style) (fuel : nat) (s t : text) :
  A <> reset -> A <> bold -> A <> dim ->
  cf_style (createColors true) B fuel s = Some t ->
  length t <= fuel ->
  (forall k, k < length (style_open A) ->
             occurs_at (style_close A) t k = false) ->
  exists out,
    nested (cf_style (createColors true) A) (cf_style (createColors true) B)
      fuel s = Some out
    /\ out = style_open A
             ++ replace_all (style_close A) (style_replace A) t
             ++ style_close A
    /\ forall k, occurs_at (style_close A) out k = true ->
                 k = length out - length (style_close A).
Proof.
  intros Hreset Hbold Hdim HB Hfuel Hearly.
  pose proof (style_close_nonempty A) as Hne.
  pose proof (style_close_well_formed A) as Hwf.
  pose proof (style_open_well_formed A) as Hopen.
  pose proof (style_open_clashes A Hreset) as Hclash.
  eexists. split; [|split; [reflexivity|]].
  - unfold nested. rewrite HB, createColors_enabled.
    rewrite formatter_resequence by assumption.
    fold (style_replace A).
    now rewrite <- replace_all_prefix by assumption.
  - intros k Hk.
    assert (Hnone : forall j,
               occurs_at (style_close A)
                 (replace_all (style_close A) (style_replace A) t) j = false).
    { rewrite style_replace_is_open by assumption.
      now apply (replace_all_no_occurrence _ _ Hwf Hopen Hclash (length t)). }
    pose proof (only_trailing_close _ _ _ Hwf Hopen Hclash Hnone k Hk) as Heq.
    rewrite !length_app. lia.
Qed.

Lemma C4_nesting_invariant_witness :
  italic <> reset /\ italic <> bold /\ italic <> dim
  /\ cf_style (createColors true) red 12 (esc "[3m" ++ lit "x" ++ esc "[23m")
     = Some (esc "[31m" ++ (esc "[3m" ++ lit "x" ++ esc "[23m")
             ++ esc "[39m")
  /\ length (esc "[31m" ++ (esc "[3m" ++ lit "x" ++ esc "[23m")
             ++ esc "[39m") <= 20
  /\ exists out,
       nested (cf_style (createColors true) italic)
         (cf_style (createColors true) red) 20
         (esc "[3m" ++ lit "x" ++ esc "[23m") = Some out
       /\ out = style_open italic
                ++ replace_all (style_close italic) (style_replace italic)
                     (esc "[31m" ++ (esc "[3m" ++ lit "x" ++ esc "[23m")
                      ++ esc "[39m")
                ++ style_close italic
       /\ forall k, occurs_at (style_close italic) out k = true ->
                    k = length out - length (style_close italic).
Proof.
  split; [discriminate|]. split; [discriminate|]. split; [discriminate|].
  split; [reflexivity|]. split; [simpl; lia|].
  apply (C4_nesting_invariant italic red 20
           (esc "[3m" ++ lit "x" ++ esc "[23m")
           (esc "[31m" ++ (esc "[3m" ++ lit "x" ++ esc "[23m")
            ++ esc "[39m")).
  - discriminate.
  - discriminate.
  - discriminate.
  - reflexivity.
  - simpl; lia.
  - intros k Hk. simpl in Hk.
    do 4 (destruct k as [|k]; [reflexivity|]). lia.
Defined.

(** C7 as stated fails.  In [bold("a" ESC[22m ESC[22m "b")] the first of the
    two consecutive close codes begins at index 1, before index
    [length open = 4]; the search starts at index 4 and finds only the
    second, so only one of the two is replaced. *)
Lemma C7_counterexample :
  cf_style (createColors true) bold 16
    (lit "a" ++ esc "[22m" ++ esc "[22m" ++ lit "b")
  = Some (esc "[1m"
          ++ (lit "a" ++ esc "[22m" ++ (esc "[22m" ++ esc "[1m") ++ lit "b")
          ++ esc "[22m")
  /\ cf_style (createColors true) bold 16
       (lit "a" ++ esc "[22m" ++ esc "[22m" ++ lit "b")
     <> Some (esc "[1m"
              ++ (lit "a" ++ (esc "[22m" ++ esc "[1m")
                  ++ (esc "[22m" ++ esc "[1m") ++ lit "b")
              ++ esc "[22m").
Proof.
  split; [reflexivity|]. vm_compute. discriminate.
Qed.

(** C7, amended.  For every style of the enabled table the replacement loop
    terminates on every input: with fuel at least the length of the input
    the style function returns a result.  When the input is
    [x ++ close ++ close ++ y] and the pair begins at or after index
    [length open], both occurrences are replaced, each by one copy of the
    replacement, and the scan resumes right after the second one. *)
Theorem C7_consecutive_closes (st : style) (fuel : nat) (s : text) :
  length s <= fuel ->
  (exists out, cf_style (createColors true) st fuel s = Some out)
  /\ forall x y,
       s = x ++ style_close st ++ style_close st ++ y ->
       length (style_open st) <= length x ->
       cf_style (createColors true) st fuel s
       = Some (style_open st
               ++ ((firstn (length (style_open st)) x
                    ++ replace_all (style_close st) (style_replace st)
                         (skipn (length (style_open st)) x))
                   ++ style_replace st ++ style_replace st
                   ++ replace_all (style_close st) (style_replace st) y)
               ++ style_close st).
Proof.
  intros Hfuel. rewrite createColors_enabled.
  pose proof (style_close_nonempty st) as Hne.
  pose proof (style_close_well_formed st) as Hwf.
  rewrite formatter_resequence by assumption. fold (style_replace st).
  split; [eexists; reflexivity|].
  intros x y -> Hx. do 3 f_equal.
  rewrite firstn_app, skipn_app.
  replace (length (style_open st) - length x) with 0 by lia.
  rewrite firstn_O, skipn_O, app_nil_r, <- app_assoc. f_equal.
  rewrite (replace_all_app_close _ _ Hwf (length x)).
  2:{ rewrite length_skipn. lia. }
  f_equal. f_equal.
  rewrite (replace_all_app_close _ _ Hwf 0 [] y) by (simpl; lia).
  now simp replace_all.
Qed.

Lemma C7_consecutive_closes_witness :
  length (lit "abcd" ++ style_close bold ++ style_close bold ++ lit "e") <= 15
  /\ lit "abcd" ++ style_close bold ++ style_close bold ++ lit "e"
     = lit "abcd" ++ style_close bold ++ style_close bold ++ lit "e"
  /\ length (style_open bold) <= length (lit "abcd")
  /\ cf_style (createColors true) bold 15
       (lit "abcd" ++ style_close bold ++ style_close bold ++ lit "e")
     = Some (style_open bold
             ++ ((firstn (length (style_open bold)) (lit "abcd")
                  ++ replace_all (style_close bold) (style_replace bold)
                       (skipn (length (style_open bold)) (lit "abcd")))
                 ++ style_replace bold ++ style_replace bold
                 ++ replace_all (style_close bold) (style_replace bold)
                      (lit "e"))
             ++ style_close bold).
Proof.
  assert (H : length (lit "abcd" ++ style_close bold ++ style_close bold
                      ++ lit "e") <= 15) by (simpl; lia).
  split; [exact H|]. split; [reflexivity|]. split; [simpl; lia|].
  apply (proj2 (C7_consecutive_closes bold 15 _ H) (lit "abcd") (lit "e")).
  - reflexivity.
  - simpl; lia.
Defined.

(** C8 as stated fails for [whiteBright]: its open code is [ESC[97m] while
    that of [white] is [ESC[37m], and the two functions differ. *)
Lemma C8_counterexample :
  style_open whiteBright = esc "[97m"
  /\ style_open white = esc "[37m"
  /\ style_open whiteBright <> style_open white
  /\ cf_style (createColors true) whiteBright 1 (lit "x")
     <> cf_style (createColors true) white 1 (lit "x").
Proof.
  split; [reflexivity|]. split; [reflexivity|].
  split; vm_compute; discriminate.
Qed.

(** C8, amended.  [blackBright] and [gray] share the open code [ESC[90m] and
    the close code [ESC[39m], so [blackBright(s) = gray(s)] for every input,
    in either table.  [whiteBright] shares with [white] only the close code
    [ESC[39m]; no other style has its open code [ESC[97m]. *)
Theorem C8_bright_aliases (enabled : bool) (fuel : nat) (s : text) :
  style_open blackBright = esc "[90m"
  /\ style_open gray = esc "[90m"
  /\ style_close blackBright = esc "[39m"
  /\ style_close gray = esc "[39m"
  /\ cf_style (createColors enabled) blackBright fuel s
     = cf_style (createColors enabled) gray fuel s
  /\ style_close whiteBright = style_close white
  /\ forall st, style_open st = style_open whiteBright -> st = whiteBright.
Proof.
  repeat (split; [reflexivity|]).
  intros st H. destruct st; try reflexivity; vm_compute in H; discriminate H.
Qed.

(** * Further properties of the code *)

(** ** More on the loop and on [formatter] *)

Lemma substring_to_end (s : text) (a : nat) :
  substring s (Z.of_nat a) None = skipn a s.
Proof.
  destruct (Nat.le_gt_cases a (length s)) as [Hle|Hgt].
  - now apply substring_from.
  - unfold substring. rewrite clamp_of_nat.
    replace (Nat.min a (length s)) with (length s) by lia.
    rewrite Nat.min_id, Nat.max_id, Nat.sub_diag.
    cbn [firstn]. symmetry. apply skipn_all2. lia.
Qed.

(** When [close] occurs nowhere past the replaced stretch, one iteration
    is enough. *)
Lemma replaceClose_single (close replace s : text) (fuel i : nat) :
  close <> [] ->
  i <= length s ->
  (forall j, i + length close <= j -> occurs_at close s j = false) ->
  replaceClose (S fuel) s close replace (Z.of_nat i)
  = Some (firstn i s ++ replace ++ skipn (i + length close) s).
Proof.
  intros Hne Hi Hno. unfold replaceClose. cbn [replaceClose_loop].
  change 0%Z with (Z.of_nat 0).
  rewrite substring_between by lia.
  rewrite <- Nat2Z.inj_add.
  rewrite indexOf_none by assumption.
  rewrite found_minus_one, substring_to_end, Nat.sub_0_r.
  cbn [app skipn]. now rewrite <- app_assoc.
Qed.

Lemma formatter_found_single (open close : text) (r : option text)
    (fuel : nat) (s : text) (i : nat) :
  close <> [] ->
  length open <= i ->
  occurs_at close s i = true ->
  (forall j, length open <= j -> j <> i -> occurs_at close s j = false) ->
  1 <= fuel ->
  formatter open close r fuel s
  = Some (open ++ (firstn i s ++ default_replace open r
                   ++ skipn (i + length close) s)
               ++ close).
Proof.
  intros Hne Hi Hocc Hno Hfuel. unfold formatter.
  destruct fuel as [|fuel]; [lia|].
  rewrite (indexOf_least s close (length open) i); try assumption.
  2:{ intros j Hj. apply Hno; lia. }
  rewrite found_of_nat.
  pose proof (occurs_at_bound _ _ _ Hne Hocc) as Hb.
  pose proof (length_pos _ Hne) as Hpos.
  rewrite replaceClose_single; try assumption; try lia.
  - reflexivity.
  - intros j Hj. apply Hno; lia.
Qed.

(** Replacing a code by itself changes nothing. *)
Lemma replace_all_same (close : text) :
  close <> [] ->
  forall n s, length s <= n -> replace_all close close s = s.
Proof.
  intros Hne. pose proof (length_pos _ Hne) as Hpos.
  induction n as [|n IH]; intros s Hn.
  - destruct s; [|simpl in Hn; lia]. now simp replace_all.
  - destruct s as [|c s]; [now simp replace_all|].
    destruct (starts_with close (c :: s)) eqn:E.
    + rewrite replace_all_match by assumption.
      rewrite IH by (rewrite length_skipn; simpl in *; lia).
      symmetry. now apply starts_with_true.
    + rewrite replace_all_skip by assumption.
      f_equal. apply IH. simpl in Hn. lia.
Qed.

(** ** Occurrences in plain text around one inner style *)

Lemma occurs_at_plain (p x w : text) (k : nat) :
  well_formed p -> ~ In ESC x -> k < length x ->
  occurs_at p (x ++ w) k = false.
Proof.
  intros [rest [-> _]] Hx Hk. unfold occurs_at.
  rewrite skipn_app. replace (k - length x) with 0 by lia. rewrite skipn_O.
  destruct (skipn k x) as [|c t] eqn:E.
  - apply (f_equal (@length N)) in E. rewrite length_skipn in E.
    simpl in E. lia.
  - cbn [app]. rewrite starts_with_cons.
    replace (N.eqb ESC c) with false; [reflexivity|].
    symmetry. apply N.eqb_neq. intros <-. apply Hx.
    rewrite <- (firstn_skipn k x). apply in_or_app. right.
    rewrite E. now left.
Qed.

Lemma occurs_at_past_end (p s : text) (k : nat) :
  p <> [] -> length s <= k -> occurs_at p s k = false.
Proof.
  intros Hp Hk. unfold occurs_at. rewrite skipn_all2 by assumption.
  now apply starts_with_nil.
Qed.

(** In [x ++ (o ++ y ++ c) ++ z] with plain [x], [y], [z] and well-formed
    codes [o] and [c], a well-formed code can only occur where [o] begins
    or where [c] begins. *)
Lemma occurs_in_sandwich (p o c x y z : text) (k : nat) :
  well_formed p -> well_formed o -> well_formed c ->
  ~ In ESC x -> ~ In ESC y -> ~ In ESC z ->
  occurs_at p (x ++ (o ++ y ++ c) ++ z) k = true ->
  (k = length x /\ starts_with p (o ++ y ++ c ++ z) = true)
  \/ (k = length x + length o + length y
      /\ starts_with p (c ++ z) = true).
Proof.
  intros Hp Ho Hc Hx Hy Hz Hk.
  pose proof (well_formed_nonempty _ Hp) as Hne.
  rewrite <- !app_assoc in Hk.
  destruct (Nat.lt_ge_cases k (length x)) as [Hlt|Hge].
  { rewrite occurs_at_plain in Hk by assumption. discriminate. }
  replace k with (length x + (k - length x)) in Hk by lia.
  rewrite occurs_at_app_r in Hk.
  destruct (k - length x) as [|k1] eqn:E1.
  { left. split; [lia|]. exact Hk. }
  destruct (Nat.lt_ge_cases (S k1) (length o)) as [Hlt1|Hge1].
  { rewrite occurs_at_inside_code in Hk by (assumption || lia).
    discriminate. }
  replace (S k1) with (length o + (S k1 - length o)) in Hk by lia.
  rewrite occurs_at_app_r in Hk.
  destruct (Nat.lt_ge_cases (S k1 - length o) (length y)) as [Hlt2|Hge2].
  { rewrite occurs_at_plain in Hk by assumption. discriminate. }
  replace (S k1 - length o)
    with (length y + (S k1 - length o - length y)) in Hk by lia.
  rewrite occurs_at_app_r in Hk.
  destruct (S k1 - length o - length y) as [|k3] eqn:E3.
  { right. split; [lia|]. exact Hk. }
  exfalso.
  destruct (Nat.lt_ge_cases (S k3) (length c)) as [Hlt3|Hge3].
  { rewrite occurs_at_inside_code in Hk by (assumption || lia).
    discriminate. }
  replace (S k3) with (length c + (S k3 - length c)) in Hk by lia.
  rewrite occurs_at_app_r in Hk.
  destruct (Nat.lt_ge_cases (S k3 - length c) (length z)) as [Hlt4|Hge4].
  - rewrite <- (app_nil_r z) in Hk.
    rewrite occurs_at_plain in Hk by assumption. discriminate.
  - rewrite occurs_at_past_end in Hk by assumption. discriminate.
Qed.

(** Only [reset] opens with a close code. *)
Lemma style_open_is_close (A B : style) :
  style_open B = style_close A -> A = reset /\ B = reset.
Proof.
  intros H.
  destruct A; destruct B; try (split; reflexivity);
    vm_compute in H; discriminate H.
Qed.

Lemma style_close_vs_open (A B : style) :
  style_open B <> style_close A ->
  forall w, starts_with (style_close A) (style_open B ++ w) = false.
Proof.
  intros H w. destruct A; destruct B; try reflexivity;
    exfalso; apply H; reflexivity.
Qed.

Lemma style_close_vs_close (A B : style) :
  style_close A <> style_close B ->
  forall w, starts_with (style_close A) (style_close B ++ w) = false.
Proof.
  intros H w. destruct A; destruct B; try reflexivity;
    exfalso; apply H; reflexivity.
Qed.

(** ** The resequencer with arbitrary codes *)

(** X1.  For any open code, any replacement and any non-empty close code
    (codes that may overlap themselves included), [formatter] returns on
    every input, given fuel for the loop: the result is [open], the first
    [length open] units of the input as they are, the rest of the input
    with every occurrence of [close] met by the left-to-right scan replaced,
    and [close]. *)
Theorem X1_formatter_any_codes (open close : text) (r : option text)
    (fuel : nat) (s : text) :
  close <> [] ->
  length s <= fuel ->
  formatter open close r fuel s
  = Some (open
          ++ (firstn (length open) s
              ++ replace_all close (default_replace open r)
                   (skipn (length open) s))
          ++ close).
Proof.
  intros Hne Hfuel. now apply formatter_resequence.
Qed.

Lemma X1_formatter_any_codes_witness :
  lit "aa" <> []
  /\ length (lit "xaaaaa") <= 6
  /\ formatter (lit "<") (lit "aa") (Some (lit "-")) 6 (lit "xaaaaa")
     = Some (lit "<"
             ++ (firstn (length (lit "<")) (lit "xaaaaa")
                 ++ replace_all (lit "aa")
                      (default_replace (lit "<") (Some (lit "-")))
                      (skipn (length (lit "<")) (lit "xaaaaa")))
             ++ lit "aa").
Proof.
  assert (H1 : lit "aa" <> []) by discriminate.
  assert (H2 : length (lit "xaaaaa") <= 6) by (simpl; lia).
  split; [exact H1|]. split; [exact H2|].
  exact (X1_formatter_any_codes (lit "<") (lit "aa") (Some (lit "-")) 6
           (lit "xaaaaa") H1 H2).
Defined.

(** X2.  With an empty close code [formatter] returns on no input: the
    search for the empty string succeeds at every cursor, so the loop
    condition of [replaceClose] never becomes false, whatever the number of
    iterations allowed. *)
Theorem X2_empty_close_never_returns (open : text) (r : option text)
    (fuel : nat) (s : text) :
  formatter open [] r fuel s = None.
Proof.
  unfold formatter.
  assert (Hf : found (indexOf s [] (Z.of_nat (length open))) = true).
  { unfold indexOf.
    destruct (skipn (clamp (length s) (Z.of_nat (length open))) s);
      apply found_of_nat. }
  rewrite Hf. unfold replaceClose.
  now rewrite replaceClose_loop_empty_close.
Qed.

(** X10.  [replaceClose] on its own, for a non-empty close code and any
    start index inside the string: the text before the index is copied as it
    is, the [length close] units at the index are replaced by one copy of
    the replacement without being compared with [close], and in what
    follows every occurrence of [close] is replaced. *)
Theorem X10_replaceClose_from_index (close replace s : text)
    (fuel i : nat) :
  close <> [] ->
  i <= length s ->
  1 <= fuel ->
  length s <= fuel ->
  replaceClose fuel s close replace (Z.of_nat i)
  = Some (firstn i s ++ replace
          ++ replace_all close replace (skipn (i + length close) s)).
Proof.
  intros Hne Hi H1 Hfuel. pose proof (length_pos _ Hne) as Hpos.
  destruct fuel as [|fuel]; [lia|].
  unfold replaceClose. cbn [replaceClose_loop].
  change 0%Z with (Z.of_nat 0).
  rewrite substring_between by lia.
  rewrite <- Nat2Z.inj_add, Nat.sub_0_r. cbn [app skipn].
  destruct (indexOf_cases s close (i + length close) Hne)
    as [[Hidx Hnone]|[i' [Hidx [Hi' [Hocc' Hno']]]]]; rewrite Hidx.
  - rewrite found_minus_one, substring_to_end.
    rewrite (replace_all_none close replace (skipn _ s)).
    + now rewrite <- app_assoc.
    + intros j. rewrite occurs_at_skipn. apply Hnone. lia.
  - rewrite found_of_nat.
    rewrite replaceClose_loop_correct; try assumption; try lia.
    rewrite (replace_all_prefix close replace (i' - (i + length close))
               (skipn (i + length close) s)).
    + rewrite skipn_skipn.
      replace (i' - (i + length close) + (i + length close)) with i' by lia.
      now rewrite <- !app_assoc.
    + intros j Hj. rewrite occurs_at_skipn. apply Hno'. lia.
Qed.

Lemma X10_replaceClose_from_index_witness :
  lit "xx" <> []
  /\ 2 <= length (lit "abcdefxxg")
  /\ 1 <= 9
  /\ length (lit "abcdefxxg") <= 9
  /\ replaceClose 9 (lit "abcdefxxg") (lit "xx") (lit "R") (Z.of_nat 2)
     = Some (firstn 2 (lit "abcdefxxg") ++ lit "R"
             ++ replace_all (lit "xx") (lit "R")
                  (skipn (2 + length (lit "xx")) (lit "abcdefxxg"))).
Proof.
  assert (H1 : lit "xx" <> []) by discriminate.
  assert (H2 : 2 <= length (lit "abcdefxxg")) by (simpl; lia).
  assert (H3 : 1 <= 9) by lia.
  assert (H4 : length (lit "abcdefxxg") <= 9) by (simpl; lia).
  split; [exact H1|]. split; [exact H2|]. split; [exact H3|].
  split; [exact H4|].
  exact (X10_replaceClose_from_index (lit "xx") (lit "R") (lit "abcdefxxg")
           9 2 H1 H2 H3 H4).
Defined.

(** ** Styles of the table *)

(** X3.  [reset] never rewrites its input: its replacement is its close
    code, so for every input the result is [ESC[0m ++ input ++ ESC[0m],
    occurrences of [ESC[0m] in the input included. *)
Theorem X3_reset_never_rewrites (fuel : nat) (s : text) :
  length s <= fuel ->
  cf_style (createColors true) reset fuel s
  = Some (esc "[0m" ++ s ++ esc "[0m").
Proof.
  intros Hfuel. rewrite createColors_enabled.
  pose proof (style_close_nonempty reset) as Hne.
  rewrite formatter_resequence by assumption.
  change (default_replace (style_open reset) (snd (style_args reset)))
    with (style_close reset).
  rewrite (replace_all_same (style_close reset) Hne (length s))
    by (rewrite length_skipn; lia).
  now rewrite firstn_skipn.
Qed.

Lemma X3_reset_never_rewrites_witness :
  length (lit "a" ++ esc "[0m" ++ esc "[0m" ++ lit "b") <= 10
  /\ cf_style (createColors true) reset 10
       (lit "a" ++ esc "[0m" ++ esc "[0m" ++ lit "b")
     = Some (esc "[0m" ++ (lit "a" ++ esc "[0m" ++ esc "[0m" ++ lit "b")
             ++ esc "[0m").
Proof.
  assert (H : length (lit "a" ++ esc "[0m" ++ esc "[0m" ++ lit "b") <= 10)
    by (simpl; lia).
  split; [exact H|].
  exact (X3_reset_never_rewrites 10 _ H).
Defined.

Lemma occurs_at_plain_text (p s : text) (j : nat) :
  well_formed p -> ~ In ESC s -> occurs_at p s j = false.
Proof.
  intros Hp Hs. destruct (Nat.lt_ge_cases j (length s)) as [Hlt|Hge].
  - rewrite <- (app_nil_r s). now apply occurs_at_plain.
  - apply occurs_at_past_end; [now apply well_formed_nonempty | assumption].
Qed.

Lemma style_plain_text (st : style) (fuel : nat) (s : text) :
  ~ In ESC s ->
  cf_style (createColors true) st fuel s
  = Some (style_open st ++ s ++ style_close st).
Proof.
  intros Hs. rewrite createColors_enabled.
  apply formatter_not_found; [apply style_close_nonempty|].
  intros j _. apply occurs_at_plain_text; [|assumption].
  apply style_close_well_formed.
Qed.

(** The input has a single occurrence of [close], at or after index
    [length open]: it is replaced and nothing else changes. *)
Lemma formatter_split_single (open close : text) (r : option text)
    (fuel : nat) (P z : text) :
  close <> [] ->
  length open <= length P ->
  (forall j, occurs_at close (P ++ close ++ z) j = true -> j = length P) ->
  1 <= fuel ->
  formatter open close r fuel (P ++ close ++ z)
  = Some (open ++ (P ++ default_replace open r ++ z) ++ close).
Proof.
  intros Hne HP Honly Hfuel.
  rewrite (formatter_found_single open close r fuel _ (length P));
    try assumption.
  - rewrite firstn_app, firstn_all, Nat.sub_diag, firstn_O, app_nil_r.
    rewrite skipn_app, (skipn_all2 P) by lia.
    replace (length P + length close - length P) with (length close) by lia.
    rewrite skipn_app, skipn_all, Nat.sub_diag, skipn_O. reflexivity.
  - rewrite <- (Nat.add_0_r (length P)), occurs_at_app_r.
    apply starts_with_app.
  - intros j _ Hj.
    destruct (occurs_at close (P ++ close ++ z) j) eqn:E; [|reflexivity].
    apply Honly in E. congruence.
Qed.

(** X4.  Nesting inside the same family.  Let [A] (not [reset]) and [B] be
    styles with the same close code and [x], [y], [z] texts without escape
    character, and let [B(y)] be surrounded by [x] and [z] inside [A].  When
    the inner close code begins at or after index [length (open A)] it is
    replaced by [A]'s replacement, so that [z] is again in style [A], and
    nothing else changes.  When it begins before that index (a short inner
    text at the very start) it is left as it is. *)
Theorem X4_same_family_nesting (A B : style) (fuel : nat) (x y z : text) :
  A <> reset ->
  style_close A = style_close B ->
  ~ In ESC x -> ~ In ESC y -> ~ In ESC z ->
  1 <= fuel ->
  cf_style (createColors true) B fuel y
  = Some (style_open B ++ y ++ style_close B)
  /\ cf_style (createColors true) A fuel
       (x ++ (style_open B ++ y ++ style_close B) ++ z)
     = Some (style_open A
             ++ (x ++ (style_open B ++ y
                       ++ (if length (style_open A)
                              <=? length x + length (style_open B) + length y
                           then style_replace A
                           else style_close B))
                 ++ z)
             ++ style_close A).
Proof.
  intros Hreset Hclose Hx Hy Hz Hfuel.
  split; [now apply style_plain_text|].
  pose proof (style_close_nonempty A) as Hne.
  pose proof (style_close_well_formed A) as HwfA.
  assert (Hopen : style_open B <> style_close A).
  { intros H. apply style_open_is_close in H as [H _]. contradiction. }
  assert (Honly : forall j,
             occurs_at (style_close A)
               (x ++ (style_open B ++ y ++ style_close B) ++ z) j = true ->
             j = length x + length (style_open B) + length y).
  { intros j Hj.
    apply occurs_in_sandwich in Hj; try assumption;
      try apply style_open_well_formed; try apply style_close_well_formed.
    destruct Hj as [[_ Hj]|[Hj _]]; [|assumption].
    rewrite style_close_vs_open in Hj by assumption. discriminate. }
  rewrite createColors_enabled.
  destruct (Nat.leb_spec (length (style_open A))
              (length x + length (style_open B) + length y)) as [Hle|Hgt].
  - rewrite <- Hclose in *. fold (style_replace A).
    replace (x ++ (style_open B ++ y ++ style_close A) ++ z)
      with ((x ++ style_open B ++ y) ++ style_close A ++ z) in *
      by now rewrite <- !app_assoc.
    rewrite formatter_split_single; try assumption.
    + fold (style_replace A). now rewrite <- !app_assoc.
    + rewrite !length_app. lia.
    + intros j Hj. apply Honly in Hj. rewrite !length_app. lia.
  - rewrite formatter_not_found; try assumption; [reflexivity|].
    intros j Hj.
    destruct (occurs_at (style_close A)
                (x ++ (style_open B ++ y ++ style_close B) ++ z) j) eqn:E;
      [|reflexivity].
    apply Honly in E. lia.
Qed.

Lemma X4_same_family_nesting_witness :
  red <> reset
  /\ style_close red = style_close green
  /\ ~ In ESC (lit "a") /\ ~ In ESC (lit "b") /\ ~ In ESC (lit "c")
  /\ 1 <= 1
  /\ cf_style (createColors true) red 1
       (lit "a" ++ (style_open green ++ lit "b" ++ style_close green)
        ++ lit "c")
     = Some (style_open red
             ++ (lit "a"
                 ++ (style_open green ++ lit "b"
                     ++ (if length (style_open red)
                            <=? length (lit "a") + length (style_open green)
                                + length (lit "b")
                         then style_replace red
                         else style_close green))
                 ++ lit "c")
             ++ style_close red).
Proof.
  assert (H0 : red <> reset) by discriminate.
  assert (H1 : style_close red = style_close green) by reflexivity.
  assert (Ha : ~ In ESC (lit "a")) by (cbv; intuition discriminate).
  assert (Hb : ~ In ESC (lit "b")) by (cbv; intuition discriminate).
  assert (Hc : ~ In ESC (lit "c")) by (cbv; intuition discriminate).
  assert (Hf : 1 <= 1) by lia.
  split; [exact H0|]. split; [exact H1|]. split; [exact Ha|].
  split; [exact Hb|]. split; [exact Hc|]. split; [exact Hf|].
  exact (proj2 (X4_same_family_nesting red green 1 (lit "a") (lit "b")
                  (lit "c") H0 H1 Ha Hb Hc Hf)).
Defined.

(** X5.  Nesting across families.  When [A] and [B] have different close
    codes and [x], [y], [z] contain no escape character, [A] wraps
    [x ++ B(y) ++ z] without changing it, with any amount of fuel: the
    result is [open A ++ x ++ B(y) ++ z ++ close A]. *)
Theorem X5_other_family_nesting (A B : style) (fuel : nat) (x y z : text) :
  style_close A <> style_close B ->
  ~ In ESC x -> ~ In ESC y -> ~ In ESC z ->
  cf_style (createColors true) B fuel y
  = Some (style_open B ++ y ++ style_close B)
  /\ cf_style (createColors true) A fuel
       (x ++ (style_open B ++ y ++ style_close B) ++ z)
     = Some (style_open A
             ++ (x ++ (style_open B ++ y ++ style_close B) ++ z)
             ++ style_close A).
Proof.
  intros Hclose Hx Hy Hz.
  split; [now apply style_plain_text|].
  rewrite createColors_enabled.
  apply formatter_not_found; [apply style_close_nonempty|].
  intros j _.
  destruct (occurs_at (style_close A)
              (x ++ (style_open B ++ y ++ style_close B) ++ z) j) eqn:E;
    [|reflexivity].
  apply occurs_in_sandwich in E; try assumption;
    try apply style_open_well_formed; try apply style_close_well_formed.
  destruct E as [[_ E]|[_ E]].
  - rewrite style_close_vs_open in E; [discriminate|].
    intros H. apply style_open_is_close in H as [-> ->]. now apply Hclose.
  - rewrite style_close_vs_close in E by assumption. discriminate.
Qed.

Lemma X5_other_family_nesting_witness :
  style_close bold <> style_close red
  /\ ~ In ESC (lit "a") /\ ~ In ESC (lit "Hello") /\ ~ In ESC (lit "!")
  /\ cf_style (createColors true) bold 0
       (lit "a" ++ (style_open red ++ lit "Hello" ++ style_close red)
        ++ lit "!")
     = Some (style_open bold
             ++ (lit "a" ++ (style_open red ++ lit "Hello" ++ style_close red)
                 ++ lit "!")
             ++ style_close bold).
Proof.
  assert (H1 : style_close bold <> style_close red)
    by (vm_compute; discriminate).
  assert (Ha : ~ In ESC (lit "a")) by (cbv; intuition discriminate).
  assert (Hb : ~ In ESC (lit "Hello")) by (cbv; intuition discriminate).
  assert (Hc : ~ In ESC (lit "!")) by (cbv; intuition discriminate).
  split; [exact H1|]. split; [exact Ha|]. split; [exact Hb|].
  split; [exact Hc|].
  exact (proj2 (X5_other_family_nesting bold red 0 (lit "a") (lit "Hello")
                  (lit "!") H1 Ha Hb Hc)).
Defined.

(** ** [bold] and [dim]: the close code is always followed by the open code *)

Lemma replace_all_esc_free_prefix_esc (close rr : text) :
  well_formed close ->
  forall s r, ~ In ESC r ->
    starts_with r (replace_all close (ESC :: rr) s) = starts_with r s.
Proof.
  intros Hwf. pose proof (well_formed_nonempty _ Hwf) as Hne.
  destruct Hwf as [rest [-> Hrest]].
  induction s as [|c s IH]; intros r Hr.
  - now simp replace_all.
  - destruct r as [|a r]; [reflexivity|].
    assert (Ha : N.eqb a ESC = false).
    { apply N.eqb_neq. intros ->. apply Hr. now left. }
    destruct (starts_with (ESC :: rest) (c :: s)) eqn:E.
    + rewrite replace_all_match by assumption.
      rewrite starts_with_cons in E. apply andb_prop in E as [Ec _].
      apply N.eqb_eq in Ec. subst c.
      cbn [app]. rewrite !starts_with_cons, Ha. reflexivity.
    + rewrite replace_all_skip by assumption.
      rewrite !starts_with_cons. rewrite IH; [reflexivity|].
      intros Hin. apply Hr. now right.
Qed.

(** After replacing [close] by [close ++ open], every occurrence of [close]
    is the beginning of an occurrence of [close ++ open]. *)
Lemma replace_all_close_then_open (close open : text) :
  well_formed close -> well_formed open -> clashes close open ->
  forall n s, length s <= n ->
    forall k,
      occurs_at close (replace_all close (close ++ open) s) k = true ->
      occurs_at (close ++ open) (replace_all close (close ++ open) s) k
      = true.
Proof.
  intros Hwf Hopen Hclash.
  pose proof (well_formed_nonempty _ Hwf) as Hne.
  pose proof (length_pos _ Hne) as Hpos.
  induction n as [|n IH]; intros s Hn k Hk.
  - destruct s; [|simpl in Hn; lia]. simp replace_all in Hk.
    rewrite occurs_at_past_end in Hk by (assumption || simpl; lia).
    discriminate.
  - destruct s as [|c s].
    + simp replace_all in Hk.
      rewrite occurs_at_past_end in Hk by (assumption || simpl; lia).
      discriminate.
    + destruct (starts_with close (c :: s)) eqn:E.
      * rewrite replace_all_match in * by assumption.
        set (W := replace_all close (close ++ open)
                    (skipn (length close) (c :: s))) in *.
        assert (HW : forall j, occurs_at close W j = true ->
                               occurs_at (close ++ open) W j = true).
        { intros j. apply IH. rewrite length_skipn. simpl in *. lia. }
        destruct k as [|k].
        { unfold occurs_at. rewrite skipn_O. apply starts_with_app. }
        rewrite <- app_assoc in Hk.
        destruct (Nat.lt_ge_cases (S k) (length close)) as [Hlt|Hge].
        { rewrite occurs_at_inside_code in Hk by (assumption || lia).
          discriminate. }
        replace (S k) with (length close + (S k - length close)) in Hk
          by lia.
        rewrite occurs_at_app_r in Hk.
        destruct (S k - length close) as [|k1] eqn:E1.
        { unfold occurs_at in Hk. rewrite skipn_O, Hclash in Hk.
          discriminate. }
        destruct (Nat.lt_ge_cases (S k1) (length open)) as [Hlt1|Hge1].
        { rewrite occurs_at_inside_code in Hk by (assumption || lia).
          discriminate. }
        replace (S k1) with (length open + (S k1 - length open)) in Hk
          by lia.
        rewrite occurs_at_app_r in Hk.
        replace (S k)
          with (length (close ++ open) + (S k1 - length open))
          by (rewrite length_app; lia).
        rewrite occurs_at_app_r. now apply HW.
      * destruct Hwf as [rest [Hc Hrest]]. subst close.
        rewrite replace_all_skip in * by assumption.
        destruct k as [|k].
        -- unfold occurs_at in Hk. rewrite skipn_O in Hk.
           rewrite starts_with_cons in Hk, E.
           cbn [app] in Hk.
           rewrite replace_all_esc_free_prefix_esc in Hk;
             [congruence| now exists rest | assumption].
        -- unfold occurs_at in *. cbn [skipn] in *.
           apply IH; [simpl in Hn; lia | assumption].
Qed.

(** X6.  For [bold] and [dim], when no occurrence of the close code [ESC[22m]
    begins before index [length open] of the input, every occurrence of
    [ESC[22m] between the leading open code and the trailing close code of
    the result is immediately followed by the style's own open code. *)
Theorem X6_intensity_reasserted (st : style) (fuel : nat) (s : text) :
  st = bold \/ st = dim ->
  length s <= fuel ->
  (forall k, k < length (style_open st) ->
             occurs_at (style_close st) s k = false) ->
  exists middle,
    cf_style (createColors true) st fuel s
    = Some (style_open st ++ middle ++ style_close st)
    /\ middle = replace_all (style_close st) (style_replace st) s
    /\ forall k,
         occurs_at (style_close st) middle k = true ->
         occurs_at (style_close st ++ style_open st) middle k = true.
Proof.
  intros Hst Hfuel Hearly.
  pose proof (style_close_nonempty st) as Hne.
  pose proof (style_close_well_formed st) as Hwf.
  pose proof (style_open_well_formed st) as Hopen.
  assert (Hclash : clashes (style_close st) (style_open st)).
  { apply style_open_clashes. destruct Hst as [->| ->]; discriminate. }
  assert (Hrep : style_replace st = style_close st ++ style_open st).
  { destruct Hst as [->| ->]; reflexivity. }
  eexists. split; [|split; [reflexivity|]].
  - rewrite createColors_enabled.
    rewrite formatter_resequence by assumption.
    fold (style_replace st).
    now rewrite <- replace_all_prefix by assumption.
  - rewrite Hrep.
    now apply (replace_all_close_then_open _ _ Hwf Hopen Hclash (length s)).
Qed.

Lemma X6_intensity_reasserted_witness :
  (bold = bold \/ bold = dim)
  /\ length (lit "abcd" ++ esc "[22m" ++ lit "e") <= 10
  /\ exists middle,
       cf_style (createColors true) bold 10
         (lit "abcd" ++ esc "[22m" ++ lit "e")
       = Some (style_open bold ++ middle ++ style_close bold)
       /\ middle = replace_all (style_close bold) (style_replace bold)
                     (lit "abcd" ++ esc "[22m" ++ lit "e")
       /\ forall k,
            occurs_at (style_close bold) middle k = true ->
            occurs_at (style_close bold ++ style_open bold) middle k = true.
Proof.
  assert (H0 : bold = bold \/ bold = dim) by (left; reflexivity).
  assert (H1 : length (lit "abcd" ++ esc "[22m" ++ lit "e") <= 10)
    by (simpl; lia).
  split; [exact H0|]. split; [exact H1|].
  apply (X6_intensity_reasserted bold 10 _ H0 H1).
  intros k Hk. simpl in Hk.
  do 4 (destruct k as [|k]; [reflexivity|]). lia.
Defined.

(** X9.  Two styles of the table have the same open code only if they are
    the same style or the pair [gray] / [blackBright]. *)
Theorem X9_open_codes_distinct (a b : style) :
  style_open a = style_open b ->
  a = b \/ (a = gray /\ b = blackBright) \/ (a = blackBright /\ b = gray).
Proof.
  intros H.
  destruct a; destruct b;
    first [ left; reflexivity
          | right; left; split; reflexivity
          | right; right; split; reflexivity
          | vm_compute in H; discriminate H ].
Qed.

Lemma X9_open_codes_distinct_witness :
  style_open gray = style_open blackBright
  /\ (gray = blackBright \/ (gray = gray /\ blackBright = blackBright)
      \/ (gray = blackBright /\ blackBright = gray)).
Proof.
  assert (H : style_open gray = style_open blackBright) by reflexivity.
  split; [exact H|]. exact (X9_open_codes_distinct gray blackBright H).
Defined.

(** ** The exported table ([createColors()] with its default parameter) *)



(** X8.  When neither [NO_COLOR] is set nor [--no-color] given, any one of
    [FORCE_COLOR] or [CI] set to a non-empty value, [--color] among the
    arguments, or the platform [win32] makes every exported style function
    the enabled formatter of its codes, whether or not stdout is a terminal
    and whatever [TERM] is. *)
Theorem X8_exports_enabled_when_forced
    (process : option Detector.Process) (st : style) :
  Detector.NO_COLOR_set (Detector.signals_of process) = false ->
  Detector.no_color_flag (Detector.signals_of process) = false ->
  Detector.FORCE_COLOR_set (Detector.signals_of process) = true
  \/ Detector.color_flag (Detector.signals_of process) = true
  \/ Detector.windows (Detector.signals_of process) = true
  \/ Detector.CI_set (Detector.signals_of process) = true ->
  cf_style (default_colors process) st
  = formatter (style_open st) (style_close st) (snd (style_args st))
  /\ cf_isColorSupported (default_colors process) = true.
Proof.
  intros Hno Hflag H. unfold default_colors.
  rewrite DetectorFacts.isColorSupported_rule. cbn [Detector.truthy].
  assert (Hrule : Detector.precedence_rule (Detector.signals_of process)
                  = true).
  { unfold Detector.precedence_rule. rewrite Hno, Hflag. cbn [orb].
    destruct H as [H|[H|[H|H]]]; rewrite H;
      rewrite ?orb_true_r; reflexivity. }
  rewrite Hrule. split; [apply createColors_enabled | reflexivity].
Qed.

Lemma X8_exports_enabled_when_forced_witness :
  Detector.NO_COLOR_set
    (Detector.signals_of
       (Some {| Detector.argv := None;
                Detector.env :=
                  Some {[ "FORCE_COLOR"%string := "1"%string ]};
                Detector.platform := Some "linux"%string;
                Detector.stdout := None |})) = false
  /\ Detector.no_color_flag
       (Detector.signals_of
          (Some {| Detector.argv := None;
                   Detector.env :=
                     Some {[ "FORCE_COLOR"%string := "1"%string ]};
                   Detector.platform := Some "linux"%string;
                   Detector.stdout := None |})) = false
  /\ Detector.FORCE_COLOR_set
       (Detector.signals_of
          (Some {| Detector.argv := None;
                   Detector.env :=
                     Some {[ "FORCE_COLOR"%string := "1"%string ]};
                   Detector.platform := Some "linux"%string;
                   Detector.stdout := None |})) = true
  /\ cf_style
       (default_colors
          (Some {| Detector.argv := None;
                   Detector.env :=
                     Some {[ "FORCE_COLOR"%string := "1"%string ]};
                   Detector.platform := Some "linux"%string;
                   Detector.stdout := None |})) red
     = formatter (style_open red) (style_close red)
         (snd (style_args red)).
Proof.
  split; [reflexivity|]. split; [reflexivity|]. split; [reflexivity|].
  refine (proj1 (X8_exports_enabled_when_forced _ red _ _ _)).
  - reflexivity.
  - reflexivity.
  - left. reflexivity.
Defined.
